(** * orbit3d: a shallow embedding of the N-body script

    The Python source (src/orbit3d.py) defines three classes, [System],
    [Body] and [Trajectory], and a module-level Verlet loop.  Each class is
    a Rocq module below; methods that mutate an object become functions
    from the object to an [outcome], methods that only read become pure
    functions (or a [result] when they can raise).

    Numbers.  Every number of the script is a numpy float64.  The embedding
    is written once over an interface [Scalar] that lists exactly the
    operations the script applies to floats; what holds of the loop and of
    the containers whatever these operations do is proved over the
    interface.  The interface is interpreted by [binary64], Rocq's
    primitive IEEE 754 doubles: the arithmetic the script really runs on,
    with rounding, overflow, signed zeros, and inf or nan where numpy
    does not raise.  What depends on the arithmetic is proved of
    [binary64], from the IEEE specification of its operations. *)

From Stdlib Require Import ZArith Floats Lia String.
From stdpp Require Import base option list.

Set Default Proof Using "Type".
Local Set Warnings "-inexact-float".

(** ** Python exceptions and the two kinds of calls *)

Inductive exn : Type := IndexError | TypeError | ValueError.

(** A call that returns a value, or raises without having changed anything. *)
Inductive result (A : Type) : Type :=
| Ok (a : A)
| Err (e : exn).
Arguments Ok {A} a.
Arguments Err {A} e.

(** A call on a mutable object: the object after the call, or the exception
    together with the object as the raise left it. *)
Inductive outcome (St : Type) : Type :=
| Done (s : St)
| Raised (e : exn) (s : St).
Arguments Done {St} s.
Arguments Raised {St} e s.

Definition outcome_bind {St : Type} (o : outcome St) (k : St → outcome St) : outcome St :=
  match o with
  | Done s => k s
  | Raised e s => Raised e s
  end.

Definition outcome_map {St St' : Type} (f : St → St') (o : outcome St) : outcome St' :=
  match o with
  | Done s => Done (f s)
  | Raised e s => Raised e (f s)
  end.

Notation "o >>> k" := (outcome_bind o k) (at level 61, left associativity).

(** ** The float operations the script uses *)

Class Scalar (R : Type) : Type := {
  zero : R;                 (* an entry of np.zeros *)
  add : R → R → R;          (* + *)
  sub : R → R → R;          (* binary - *)
  mul : R → R → R;          (* * *)
  div : R → R → R;          (* / , numpy semantics: never raises *)
  neg : R → R;              (* unary - *)
  absf : R → R;             (* np.abs *)
  sqr : R → R;              (* ** 2 *)
  eqb : R → R → bool;       (* == *)
  of_int : Z → R;           (* a Python int used in float arithmetic *)
  lit_g : R;                (* the literal 6.67259e-11 *)
  lit_half : R              (* the literal 0.5 *)
}.

(** ** numpy arrays of the shapes the script uses *)

Section Arrays.
Context {R : Type} `{Scalar R}.

(** Shape (3,). *)
Record vec3 : Type := Vec3 { c0 : R; c1 : R; c2 : R }.

(** Shape (6,): a position followed by a velocity, as np.concatenate
    builds it; [row[0:3]] is [fst], [row[3:6]] is [snd]. *)
Definition row6 : Type := (vec3 * vec3)%type.

Definition vmap (f : R → R) (v : vec3) : vec3 :=
  Vec3 (f (c0 v)) (f (c1 v)) (f (c2 v)).

Definition vzip (f : R → R → R) (u v : vec3) : vec3 :=
  Vec3 (f (c0 u) (c0 v)) (f (c1 u) (c1 v)) (f (c2 u) (c2 v)).

(** np.zeros(3) *)
Definition zeros3 : vec3 := Vec3 zero zero zero.

(** np.array_equal on two arrays of shape (3,): all (a == b). *)
Definition array_equal (u v : vec3) : bool :=
  eqb (c0 u) (c0 v) && eqb (c1 u) (c1 v) && eqb (c2 u) (c2 v).

(** Element-wise arithmetic on arrays of equal shape; [zip_with] on the
    rows of two n x 3 arrays. *)
Definition mzip (f : R → R → R) (a b : list vec3) : list vec3 :=
  zip_with (vzip f) a b.

Definition mmap (f : R → R) (a : list vec3) : list vec3 :=
  vmap f <$> a.

(** np.zeros(shape=(n, 3)) *)
Definition zeros_n3 (n : nat) : list vec3 := replicate n zeros3.

(** np.sum(_, axis=1) on an array of shape (n, m, 3): for every first
    index the entries are added up along the second index, in order,
    from zero. *)
Definition sum_rows (row : list vec3) : vec3 :=
  foldl (vzip add) zeros3 row.

Definition sum_axis1 (a : list (list vec3)) : list vec3 :=
  sum_rows <$> a.

End Arrays.

Arguments vec3 R : clear implicits.
Arguments row6 R : clear implicits.

(** ** class Body *)

Module Body.
Section Body.
Context {R : Type} `{Scalar R}.

Record t : Type := Make {
  GM : R;
  mass : R;
  name : string;
  x0 : R; y0 : R; z0 : R;
  x : R; y : R; z : R;
  vx0 : R; vy0 : R; vz0 : R;
  vx : R; vy : R; vz : R;
  radius : R;
  last_values : row6 R * row6 R;      (* np.zeros(shape=(2, 6)) *)
  iter : Z
}.

Definition zeros6 : row6 R := (zeros3, zeros3).

(** Body.__init__ *)
Definition init (name : string) (x0 y0 z0 vx0 vy0 vz0 mass gm radius : R) : t :=
  {| GM := gm; mass := mass; name := name;
     x0 := x0; y0 := y0; z0 := z0;
     x := x0; y := y0; z := z0;
     vx0 := vx0; vy0 := vy0; vz0 := vz0;
     vx := vx0; vy := vy0; vz := vz0;
     radius := radius;
     last_values := (zeros6, zeros6);
     iter := 0 |}.

Definition compute_acceleration (b : t) (force : vec3 R) : vec3 R :=
  vmap (λ f, div f (mass b)) force.

Definition get_position (b : t) : vec3 R := Vec3 (x b) (y b) (z b).

Definition get_velocity (b : t) : vec3 R := Vec3 (vx b) (vy b) (vz b).

Definition get_last_values (b : t) : row6 R * row6 R := last_values b.

Definition set_position (px py pz : R) (b : t) : t :=
  {| GM := GM b; mass := mass b; name := name b;
     x0 := x0 b; y0 := y0 b; z0 := z0 b;
     x := px; y := py; z := pz;
     vx0 := vx0 b; vy0 := vy0 b; vz0 := vz0 b;
     vx := vx b; vy := vy b; vz := vz b;
     radius := radius b;
     last_values := last_values b;
     iter := iter b |}.

Definition set_velocity (pvx pvy pvz : R) (b : t) : t :=
  {| GM := GM b; mass := mass b; name := name b;
     x0 := x0 b; y0 := y0 b; z0 := z0 b;
     x := x b; y := y b; z := z b;
     vx0 := vx0 b; vy0 := vy0 b; vz0 := vz0 b;
     vx := pvx; vy := pvy; vz := pvz;
     radius := radius b;
     last_values := last_values b;
     iter := iter b |}.

Definition with_last_values (lv : row6 R * row6 R) (b : t) : t :=
  {| GM := GM b; mass := mass b; name := name b;
     x0 := x0 b; y0 := y0 b; z0 := z0 b;
     x := x b; y := y b; z := z b;
     vx0 := vx0 b; vy0 := vy0 b; vz0 := vz0 b;
     vx := vx b; vy := vy b; vz := vz b;
     radius := radius b;
     last_values := lv;
     iter := iter b |}.

(** self.last_values[pos][:] = result; the array has two rows, so any
    other index raises IndexError. *)
Definition set_integration_result (pos : nat) (res : row6 R) (b : t) : result t :=
  match pos with
  | 0 => Ok (with_last_values (res, snd (last_values b)) b)
  | 1 => Ok (with_last_values (fst (last_values b), res) b)
  | _ => Err IndexError
  end.

(** self.last_values[pos][:] *)
Definition get_integration_result (pos : nat) (b : t) : result (row6 R) :=
  match pos with
  | 0 => Ok (fst (last_values b))
  | 1 => Ok (snd (last_values b))
  | _ => Err IndexError
  end.

(** 0.5 * self.mass * (self.vx ** 2 + self.vy ** 2 + self.vz ** 2) *)
Definition ke (b : t) : R :=
  mul (mul lit_half (mass b)) (add (add (sqr (vx b)) (sqr (vy b))) (sqr (vz b))).
End Body.
End Body.

Arguments Body.t R : clear implicits.

(** ** class System *)

Module System.
Section System.
Context {R : Type} `{Scalar R}.

Record t : Type := Make {
  n : nat;
  bodies : list (Body.t R)
}.

(** zip(self.bodies, range(self.n)), the iteration every method uses. *)
Definition enum (s : t) : list (Body.t R * nat) :=
  zip (bodies s) (seq 0 (n s)).

(** [f(i) for i in range(...)]: the first raise aborts the comprehension. *)
Fixpoint collect {A : Type} (f : nat → result A) (idx : list nat) : result (list A) :=
  match idx with
  | [] => Ok []
  | i :: idx' =>
      match f i with
      | Err e => Err e
      | Ok a =>
          match collect f idx' with
          | Err e => Err e
          | Ok l => Ok (a :: l)
          end
      end
  end.

(** Body(names[i], *posvel[i], masses[i], gms[i], radii[i]): the arguments
    are evaluated left to right (a missing row raises IndexError), then
    the call checks that the unpacked row gave six values (TypeError). *)
Definition make_body (names : list string) (posvel : list (list R))
    (masses gms radii : list R) (i : nat) : result (Body.t R) :=
  match names !! i with
  | None => Err IndexError
  | Some nm =>
  match posvel !! i with
  | None => Err IndexError
  | Some pv =>
  match masses !! i with
  | None => Err IndexError
  | Some m =>
  match gms !! i with
  | None => Err IndexError
  | Some gm =>
  match radii !! i with
  | None => Err IndexError
  | Some rad =>
  match pv with
  | [px; py; pz; pvx; pvy; pvz] => Ok (Body.init nm px py pz pvx pvy pvz m gm rad)
  | _ => Err TypeError
  end end end end end end.

(** System.__init__ *)
Definition init (names : list string) (posvel : list (list R))
    (masses gms radii : list R) : result t :=
  match collect (make_body names posvel masses gms radii) (seq 0 (length names)) with
  | Ok bs => Ok {| n := length names; bodies := bs |}
  | Err e => Err e
  end.

(** for b, i in zip(self.bodies, range(self.n)): arr[i][:] = f(b) *)
Definition fill {A : Type} (f : Body.t R → A) (s : t) (arr : list A) : list A :=
  foldl (λ arr bi, <[bi.2 := f bi.1]> arr) arr (enum s).

Definition get_positions (s : t) : list (vec3 R) :=
  fill Body.get_position s (zeros_n3 (n s)).

Definition get_velocities (s : t) : list (vec3 R) :=
  fill Body.get_velocity s (zeros_n3 (n s)).

(** The inner function of force_matrix: "Vector force (in N) acting on
    body2 exerted by body1". *)
Definition force (body1 body2 : Body.t R) : vec3 R :=
  let g := lit_g in
  let pos1 := Body.get_position body1 in
  let pos2 := Body.get_position body2 in
  if array_equal pos2 pos1 then zeros3
  else
    let r12 := vzip sub pos2 pos1 in
    let dist := vmap absf r12 in
    let r12_hat := vzip div r12 dist in
    vzip mul
      (vmap (div (mul (mul (neg g) (Body.mass body1)) (Body.mass body2)))
            (vmap sqr dist))
      r12_hat.

(** forces[i][j][:] = force(one, two) in the double loop. *)
Definition force_matrix (s : t) : list (list (vec3 R)) :=
  foldl (λ forces one_i,
           foldl (λ forces two_j,
                    alter (<[two_j.2 := force one_i.1 two_j.1]>) one_i.2 forces)
                 forces (enum s))
        (replicate (n s) (zeros_n3 (n s))) (enum s).

(** resforce = np.sum(self.force_matrix(), axis=1) *)
Definition resultant_forces (s : t) : list (vec3 R) :=
  sum_axis1 (force_matrix s).

(** get_accelerations; [resforce] has n rows, so resforce[i] with i from
    range(n) is always in range. *)
Definition get_accelerations (s : t) : list (vec3 R) :=
  let resforce := resultant_forces s in
  foldl (λ acc ai,
           <[ai.2 := Body.compute_acceleration ai.1 (default zeros3 (resforce !! ai.2))]> acc)
        (zeros_n3 (n s)) (enum s).

(** data[i] = b.get_integration_result(pos) over the zip. *)
Fixpoint gather (pos : nat) (l : list (Body.t R * nat)) (data : list (row6 R))
    : result (list (row6 R)) :=
  match l with
  | [] => Ok data
  | bi :: l' =>
      match Body.get_integration_result pos bi.1 with
      | Err e => Err e
      | Ok r => gather pos l' (<[bi.2 := r]> data)
      end
  end.

Definition get_integration_results (pos : nat) (s : t) : result (list (row6 R)) :=
  gather pos (enum s) (replicate (n s) Body.zeros6).

(** A loop over zip(bodies, idx) that mutates each body in turn: a raise
    leaves the bodies already visited changed. *)
Fixpoint for_each (f : Body.t R → nat → result (Body.t R))
    (bs : list (Body.t R)) (idx : list nat) : outcome (list (Body.t R)) :=
  match bs, idx with
  | b :: bs', i :: idx' =>
      match f b i with
      | Err e => Raised e (b :: bs')
      | Ok b' => outcome_map (cons b') (for_each f bs' idx')
      end
  | _, _ => Done bs
  end.

Definition update (f : Body.t R → nat → result (Body.t R)) (s : t) : outcome t :=
  outcome_map (λ bs, {| n := n s; bodies := bs |})
              (for_each f (bodies s) (seq 0 (n s))).

(** data = np.concatenate([res_pos, res_vel], axis=1) needs as many rows
    on both sides (ValueError otherwise); then
    b.set_integration_result(pos, data[i][:]) over the zip. *)
Definition set_integration_results (pos : nat) (res_pos res_vel : list (vec3 R))
    (s : t) : outcome t :=
  if decide (length res_pos = length res_vel) then
    let data := zip res_pos res_vel in
    update (λ b i, match data !! i with
                   | None => Err IndexError
                   | Some row => Body.set_integration_result pos row b
                   end) s
  else Raised ValueError s.

(** a.set_position( *pos[i][:] ) over the zip. *)
Definition set_positions (pos : list (vec3 R)) (s : t) : outcome t :=
  update (λ a i, match pos !! i with
                 | None => Err IndexError
                 | Some v => Ok (Body.set_position (c0 v) (c1 v) (c2 v) a)
                 end) s.

(** set_velocities, as written: it calls a.set_position( *vel[i][:] ). *)
Definition set_velocities (vel : list (vec3 R)) (s : t) : outcome t :=
  update (λ a i, match vel !! i with
                 | None => Err IndexError
                 | Some v => Ok (Body.set_position (c0 v) (c1 v) (c2 v) a)
                 end) s.
End System.
End System.

Arguments System.t R : clear implicits.

(** ** class Trajectory *)

Module Trajectory.
Section Trajectory.
Context {R : Type} `{Scalar R}.

Record t : Type := Make {
  trajectories : list (list (vec3 R));
  n_trajectories : nat;
  row_counter : nat
}.

(** Trajectory.__init__ *)
Definition init (n_trajectories n_coords : nat) : t :=
  {| trajectories := replicate n_trajectories (zeros_n3 n_coords);
     n_trajectories := n_trajectories;
     row_counter := 0 |}.

(** One pass of the loop body  self.trajectories[i][self.row_counter] = pos[i]
    for each i of [idx]; numpy raises IndexError for a row index outside
    the buffer, and so do pos[i] and self.trajectories[i]. *)
Fixpoint store_rows (pos : list (vec3 R)) (row : nat) (idx : list nat)
    (trs : list (list (vec3 R))) : outcome (list (list (vec3 R))) :=
  match idx with
  | [] => Done trs
  | i :: idx' =>
      match pos !! i, trs !! i with
      | Some v, Some buf =>
          if decide (row < length buf)
          then store_rows pos row idx' (<[i := <[row := v]> buf]> trs)
          else Raised IndexError trs
      | _, _ => Raised IndexError trs
      end
  end.

Definition set_trajectory_position (pos : list (vec3 R)) (tr : t) : outcome t :=
  match store_rows pos (row_counter tr) (seq 0 (n_trajectories tr)) (trajectories tr) with
  | Done trs =>
      Done {| trajectories := trs;
              n_trajectories := n_trajectories tr;
              row_counter := row_counter tr + 1 |}
  | Raised e trs =>
      Raised e {| trajectories := trs;
                  n_trajectories := n_trajectories tr;
                  row_counter := row_counter tr |}
  end.

Definition get_trajectory (i : nat) (tr : t) : result (list (vec3 R)) :=
  match trajectories tr !! i with
  | Some buf => Ok buf
  | None => Err IndexError
  end.
End Trajectory.
End Trajectory.

Arguments Trajectory.t R : clear implicits.

(** ** The module-level script: constants and the Verlet loop *)

Definition dt : Z := 86400.
Definition dt2 : Z := dt ^ 2.
Definition n_rows : nat := 700.

Section Verlet.
Context {R : Type} `{Scalar R}.

(** The two globals the loop mutates. *)
Record state : Type := State {
  sol : System.t R;
  tra : Trajectory.t R
}.

Definition on_sol (f : System.t R → outcome (System.t R)) (st : state) : outcome state :=
  outcome_map (λ s, {| sol := s; tra := tra st |}) (f (sol st)).

Definition on_tra (f : Trajectory.t R → outcome (Trajectory.t R)) (st : state) : outcome state :=
  outcome_map (λ t, {| sol := sol st; tra := t |}) (f (tra st)).

(** q0 + p0 * dt + 0.5 * A * dt2 on n x 3 arrays (all three have one row
    per body, so the element-wise operations pair the rows up). *)
Definition bootstrap (q0 p0 A : list (vec3 R)) : list (vec3 R) :=
  mzip add (mzip add q0 (mmap (λ p, mul p (of_int dt)) p0))
           (mmap (λ a, mul (mul lit_half a) (of_int dt2)) A).

(** 2*qn-qn1 + A*dt2 *)
Definition stormer (qn qn1 A : list (vec3 R)) : list (vec3 R) :=
  mzip add (mzip sub (mmap (mul (of_int 2)) qn) qn1)
           (mmap (λ a, mul a (of_int dt2)) A).

(** sol.get_integration_results(slot)[:, 0:3] *)
Definition history_positions (slot : nat) (s : System.t R) : result (list (vec3 R)) :=
  match System.get_integration_results slot s with
  | Ok rows => Ok (fst <$> rows)
  | Err e => Err e
  end.

(** The body shared by the two branches for k >= 2: [older] is the slot
    read as qn1 and overwritten, [newer] the slot read as qn. *)
Definition advance (older newer : nat) (p0 : list (vec3 R)) (st : state) : outcome state :=
  let A := System.get_accelerations (sol st) in
  match history_positions older (sol st) with
  | Err e => Raised e st
  | Ok qn1 =>
  match history_positions newer (sol st) with
  | Err e => Raised e st
  | Ok qn =>
      let qplus := stormer qn qn1 A in
      on_tra (Trajectory.set_trajectory_position qplus) st >>> λ st,
      on_sol (System.set_integration_results older qplus p0) st >>> λ st,
      on_sol (System.set_positions qplus) st
  end end.

(** One iteration of  for k in range(n_rows). *)
Definition step (p0 : list (vec3 R)) (k : nat) (st : state) : outcome state :=
  if decide (k = 0) then
    let q0 := System.get_positions (sol st) in
    on_sol (System.set_integration_results 0 q0 p0) st >>> λ st,
    on_tra (Trajectory.set_trajectory_position q0) st
  else if decide (k = 1) then
    match history_positions 0 (sol st) with
    | Err e => Raised e st
    | Ok q0 =>
        let A := System.get_accelerations (sol st) in
        let q1 := bootstrap q0 p0 A in
        on_sol (System.set_integration_results 1 q1 p0) st >>> λ st,
        on_tra (Trajectory.set_trajectory_position q1) st >>> λ st,
        on_sol (System.set_positions q1) st
    end
  else if decide (k `mod` 2 = 0) then advance 0 1 p0 st
  else if decide (k `mod` 2 ≠ 0) then advance 1 0 p0 st
  else Done st.

Fixpoint loop (p0 : list (vec3 R)) (ks : list nat) (st : state) : outcome state :=
  match ks with
  | [] => Done st
  | k :: ks' =>
      match step p0 k st with
      | Done st' => loop p0 ks' st'
      | Raised e st' => Raised e st'
      end
  end.

(** The state the script builds before the loop, for a given System and
    number of rows:  tra = Trajectory(len(body_names), n_rows). *)
Definition start (rows : nat) (s : System.t R) : state :=
  {| sol := s; tra := Trajectory.init (System.n s) rows |}.

(** The first [k] iterations of the loop; the script runs [rows] of them. *)
Definition run_steps (rows k : nat) (s : System.t R) : outcome state :=
  loop (System.get_velocities s) (seq 0 k) (start rows s).

Definition run (rows : nat) (s : System.t R) : outcome state :=
  run_steps rows rows s.
End Verlet.

Arguments state R : clear implicits.

(** ** The interpretation of [Scalar]: IEEE 754 binary64 *)

(** A Python int converted to float64: rounded to nearest even. *)
Definition of_int64 (i : Z) : float :=
  SF2Prim (binary_normalize prec emax i 0 false).

#[export] Instance binary64 : Scalar float := {|
  zero := 0%float;
  add := PrimFloat.add;
  sub := PrimFloat.sub;
  mul := PrimFloat.mul;
  div := PrimFloat.div;
  neg := PrimFloat.opp;
  absf := PrimFloat.abs;
  sqr := λ a, PrimFloat.mul a a;
  eqb := PrimFloat.eqb;
  of_int := of_int64;
  lit_g := 6.67259e-11%float;
  lit_half := 0.5%float
|}.

(** ** Notions used to state the properties *)

Section Notions.
Context {R : Type} `{Scalar R}.

(** self.n = len(self.bodies): set by System.__init__, kept by every method. *)
Definition system_wf (s : System.t R) : Prop :=
  System.n s = length (System.bodies s).

(** One buffer per body, every buffer with [cap] rows (what
    Trajectory.__init__ allocates). *)
Definition trajectory_wf (cap : nat) (tr : Trajectory.t R) : Prop :=
  Trajectory.n_trajectories tr = length (Trajectory.trajectories tr) ∧
  Forall (λ buf, length buf = cap) (Trajectory.trajectories tr).

(** History slot [slot] (0 or 1) of a body, and the body with that slot
    overwritten. *)
Definition slot_of (slot : nat) (b : Body.t R) : row6 R :=
  match slot with
  | 0 => fst (Body.last_values b)
  | _ => snd (Body.last_values b)
  end.

Definition put (slot : nat) (b : Body.t R) (row : row6 R) : Body.t R :=
  match slot with
  | 0 => Body.with_last_values (row, snd (Body.last_values b)) b
  | _ => Body.with_last_values (fst (Body.last_values b), row) b
  end.

Definition move (b : Body.t R) (v : vec3 R) : Body.t R :=
  Body.set_position (c0 v) (c1 v) (c2 v) b.

(** buf[row] = v on one trajectory buffer. *)
Definition store (row : nat) (buf : list (vec3 R)) (v : vec3 R) : list (vec3 R) :=
  <[row := v]> buf.

(** Row [r] of every buffer: the n x 3 array recorded at call number [r]. *)
Definition recorded_row (r : nat) (tr : Trajectory.t R) : option (list (vec3 R)) :=
  mapM (λ buf : list (vec3 R), buf !! r) (Trajectory.trajectories tr).

(** The velocity part of slot [slot] of every body. *)
Definition history_velocities (slot : nat) (s : System.t R) : list (vec3 R) :=
  (λ b, snd (slot_of slot b)) <$> System.bodies s.

(** A sequence of calls to set_trajectory_position. *)
Fixpoint record_all (ps : list (list (vec3 R))) (tr : Trajectory.t R)
    : outcome (Trajectory.t R) :=
  match ps with
  | [] => Done tr
  | p :: ps' =>
      match Trajectory.set_trajectory_position p tr with
      | Done tr' => record_all ps' tr'
      | Raised e tr' => Raised e tr'
      end
  end.

(** Column [b] of a list of n x 3 arrays: the positions passed for body [b]. *)
Definition passed_for (b : nat) (ps : list (list (vec3 R))) : option (list (vec3 R)) :=
  mapM (λ p : list (vec3 R), p !! b) ps.
(** The position part of slot [slot] of every body:
    what sol.get_integration_results(slot)[:, 0:3] reads. *)
Definition slot_positions (slot : nat) (s : System.t R) : list (vec3 R) :=
  (λ b, fst (slot_of slot b)) <$> System.bodies s.

(** The n x 3 array iteration [k] computes from the System it starts in. *)
Definition new_positions (p0 : list (vec3 R)) (k : nat) (s : System.t R) : list (vec3 R) :=
  match k with
  | 0 => System.get_positions s
  | 1 => bootstrap (slot_positions 0 s) p0 (System.get_accelerations s)
  | _ => stormer (slot_positions ((k + 1) `mod` 2) s) (slot_positions (k `mod` 2) s)
                 (System.get_accelerations s)
  end.

(** The state after an iteration that computed [q]: slot [slot] of every
    body holds its row of [q] with its row of [p0], the recorder has one
    more row, and the bodies sit at [q]. *)
Definition after_step (slot : nat) (q p0 : list (vec3 R)) (st : state R) : state R :=
  {| sol := {| System.n := System.n (sol st);
               System.bodies :=
                 zip_with move (zip_with (put slot) (System.bodies (sol st)) (zip q p0)) q |};
     tra := {| Trajectory.trajectories :=
                 zip_with (store (Trajectory.row_counter (tra st)))
                          (Trajectory.trajectories (tra st)) q;
               Trajectory.n_trajectories := Trajectory.n_trajectories (tra st);
               Trajectory.row_counter := Trajectory.row_counter (tra st) + 1 |} |}.

(** The System with its bodies put at the rows of [q], as set_positions
    leaves it. *)
Definition placed (s : System.t R) (q : list (vec3 R)) : System.t R :=
  {| System.n := System.n s; System.bodies := zip_with move (System.bodies s) q |}.

(** What holds of the two globals after [k] iterations on a System that
    started as [s0] with a recorder of [rows] rows. *)
Record run_inv (s0 : System.t R) (rows k : nat) (st : state R) : Prop := RunInv {
  inv_wf : system_wf (sol st);
  inv_n : System.n (sol st) = System.n s0;
  inv_tra : trajectory_wf rows (tra st);
  inv_nt : Trajectory.n_trajectories (tra st) = System.n s0;
  inv_rc : Trajectory.row_counter (tra st) = k;
  inv_vel : Body.get_velocity <$> System.bodies (sol st)
            = Body.get_velocity <$> System.bodies s0;
  inv_mass : Body.mass <$> System.bodies (sol st) = Body.mass <$> System.bodies s0;
  inv_start : k = 0 → sol st = s0;
  inv_pos : 0 < k → recorded_row (k - 1) (tra st) = Some (System.get_positions (sol st));
  inv_newer : 0 < k → slot_positions ((k + 1) `mod` 2) (sol st)
                      = System.get_positions (sol st);
  inv_older : 1 < k → recorded_row (k - 2) (tra st)
                      = Some (slot_positions (k `mod` 2) (sol st));
  inv_newer_vel : 0 < k → history_velocities ((k + 1) `mod` 2) (sol st)
                          = System.get_velocities s0;
  inv_older_vel : 1 < k → history_velocities (k `mod` 2) (sol st)
                          = System.get_velocities s0
}.
End Notions.

(** ** The specification's formulas, for comparison with the code *)

(** Follows the spec (4.2, resultant force): "the sum, over all other
    bodies, of the force each exerts on k, i.e. Σ_i F[i][k], summed along
    the first index for fixed second index". *)
Definition spec_resultant_force {R : Type} `{Scalar R} (s : System.t R) (k : nat) : vec3 R :=
  sum_rows ((λ row : list (vec3 R), default zeros3 (row !! k)) <$> System.force_matrix s).

(** Follows the spec (4.2): "dist = |r| (Euclidean norm)", on binary64. *)
Definition spec_dist (r : vec3 float) : float :=
  PrimFloat.sqrt (c0 r * c0 r + c1 r * c1 r + c2 r * c2 r)%float.

(** Follows the spec (4.2): "r = pos_j − pos_i; dist = |r|; unit vector
    r̂ = r / dist; F[i][j] = −G · mass_i · mass_j / dist² · r̂", on
    binary64, for two bodies at different positions. *)
Definition spec_force (body_i body_j : Body.t float) : vec3 float :=
  let r := vzip sub (Body.get_position body_j) (Body.get_position body_i) in
  let dist := spec_dist r in
  let r_hat := vmap (λ c, div c dist) r in
  vmap (mul (div (mul (mul (neg lit_g) (Body.mass body_i)) (Body.mass body_j))
                 (mul dist dist)))
       r_hat.

(** ** Concrete bodies and systems *)

(** Body(name, x0, y0, z0, vx0, vy0, vz0, mass, gm=0, radius=0). *)
Definition body_at {R : Type} `{Scalar R} (name : string)
    (px py pz pvx pvy pvz m : R) : Body.t R :=
  Body.init name px py pz pvx pvy pvz m zero zero.

Definition system_of {R : Type} `{Scalar R} (bs : list (Body.t R)) : System.t R :=
  {| System.n := length bs; System.bodies := bs |}.

Section Binary64Inputs.
Local Open Scope float_scope.

(** Two unit masses, no coordinate in common. *)
Definition body_o : Body.t float := body_at "o" 0 0 0 0 0 0 1.
Definition body_d : Body.t float := body_at "d" 1 2 4 0 0 0 1.
Definition pair_apart : System.t float := system_of [body_o; body_d].

(** Two unit masses whose separation (3, 4, 12) has Euclidean norm 13. *)
Definition body_e : Body.t float := body_at "e" 3 4 12 0 0 0 1.
Definition pair_13 : System.t float := system_of [body_o; body_e].

(** Two unit masses on the x axis. *)
Definition body_x : Body.t float := body_at "x" 1 0 0 0 0 0 1.
Definition pair_on_axis : System.t float := system_of [body_o; body_x].

(** One body at (1, 2, 3) with velocity (4, 5, 6). *)
Definition body_v : Body.t float := body_at "v" 1 2 3 4 5 6 1.
Definition lone_v : System.t float := system_of [body_v].

(** One body at the origin moving along x at 1 m/s. *)
Definition body_m : Body.t float := body_at "m" 0 0 0 1 0 0 1.
Definition lone_mover : System.t float := system_of [body_m].

(** One body with mass -1. *)
Definition body_neg : Body.t float := body_at "n" 0 0 0 0 0 0 (-1).
End Binary64Inputs.

(** ** binary64: the notions used for a body on its own *)

Section Binary64Notions.
Local Open Scope float_scope.

(** One body at rest at (1, 2, 3). *)
Definition body_r : Body.t float := body_at "r" 1 2 3 0 0 0 5.
Definition lone_r : System.t float := system_of [body_r].

(** One body at rest at x = 1e308; 2 * 1e308 is beyond the largest
    float64. *)
Definition body_far : Body.t float := body_at "f" 1e308 0 0 0 0 0 1.
Definition lone_far : System.t float := system_of [body_far].

(** Half the largest float64, 0x1.fffffffffffffp+1022 (about 8.99e307):
    the largest float64 whose double is not an infinity. *)
Definition half_max : float := 0x1.fffffffffffffp+1022.

(** A coordinate c for which 2*c does not overflow: |c| <= half_max.  It
    is then no infinity and no nan. *)
Definition in_range (a : float) : bool := abs a <=? half_max.

Definition in_range3 (v : vec3 float) : bool :=
  in_range (c0 v) && in_range (c1 v) && in_range (c2 v).

(** A mass that zero can be divided by: any float64 (the infinities
    included) other than nan, 0.0 and -0.0. *)
Definition nonzero_number (m : float) : bool :=
  negb (is_nan m) && negb (is_zero m).

(** The coordinate [a] is where [a0] was: the same float64, or a zero
    where [a0] was a zero (the sum -0.0 + 0.0 is 0.0). *)
Definition stays (a0 a : float) : Prop :=
  a = a0 ∨ (is_zero a0 = true ∧ is_zero a = true).

Definition stays3 (q0 q : vec3 float) : Prop :=
  stays (c0 q0) (c0 q) ∧ stays (c1 q0) (c1 q) ∧ stays (c2 q0) (c2 q).
End Binary64Notions.

(** ** Arrays filled by the zip loops *)

Section ArrayLemmas.
Context {R : Type} `{Scalar R}.

Lemma foldl_insert_length {A B : Type} (f : B → A) (ix : B → nat) (l : list B) :
  ∀ arr : list A, length (foldl (λ arr b, <[ix b := f b]> arr) arr l) = length arr.
Proof.
  induction l as [|b l IH]; intros arr; simpl; [done|].
  rewrite IH. apply length_insert.
Qed.

Lemma fill_from {A : Type} (f : Body.t R → A) (bs : list (Body.t R)) :
  ∀ (k : nat) (arr : list A),
    k + length bs ≤ length arr →
    foldl (λ arr bi, <[bi.2 := f bi.1]> arr) arr (zip bs (seq k (length bs)))
    = take k arr ++ (f <$> bs) ++ drop (k + length bs) arr.
Proof.
  induction bs as [|b bs IH]; intros k arr Hlen; simpl in *.
  - rewrite Nat.add_0_r. by rewrite take_drop.
  - rewrite IH by (rewrite length_insert; lia).
    rewrite (take_S_r _ k (f b)) by (apply list_lookup_insert_eq; lia).
    rewrite take_insert_ge by lia.
    rewrite drop_insert_lt by lia.
    replace (S k + length bs) with (k + S (length bs)) by lia.
    by rewrite <- app_assoc.
Qed.

Lemma fill_wf {A : Type} (f : Body.t R → A) (s : System.t R) (arr : list A) :
  system_wf s → length arr = System.n s →
  System.fill f s arr = f <$> System.bodies s.
Proof.
  intros Hwf Hlen. unfold System.fill, System.enum. rewrite Hwf.
  rewrite fill_from by (rewrite Hlen, Hwf; simpl; lia).
  simpl. rewrite drop_ge by (rewrite Hlen, Hwf; lia).
  by rewrite app_nil_r.
Qed.

Lemma get_positions_wf (s : System.t R) :
  system_wf s → System.get_positions s = Body.get_position <$> System.bodies s.
Proof.
  intros Hwf. apply fill_wf; [done|]. unfold zeros_n3. by rewrite length_replicate.
Qed.

Lemma get_velocities_wf (s : System.t R) :
  system_wf s → System.get_velocities s = Body.get_velocity <$> System.bodies s.
Proof.
  intros Hwf. apply fill_wf; [done|]. unfold zeros_n3. by rewrite length_replicate.
Qed.

Lemma get_accelerations_length (s : System.t R) :
  length (System.get_accelerations s) = System.n s.
Proof.
  unfold System.get_accelerations.
  rewrite (foldl_insert_length
             (λ ai, Body.compute_acceleration ai.1
                      (default zeros3 (System.resultant_forces s !! ai.2)))
             snd).
  unfold zeros_n3. by rewrite length_replicate.
Qed.
End ArrayLemmas.

(** ** The methods of System on a well-formed System *)

Section SystemLemmas.
Context {R : Type} `{Scalar R}.

Lemma set_integration_result_put (slot : nat) (row : row6 R) (b : Body.t R) :
  slot < 2 → Body.set_integration_result slot row b = Ok (put slot b row).
Proof. intros Hs. destruct slot as [|[|slot]]; [done|done|lia]. Qed.

Lemma get_integration_result_slot (slot : nat) (b : Body.t R) :
  slot < 2 → Body.get_integration_result slot b = Ok (slot_of slot b).
Proof. intros Hs. destruct slot as [|[|slot]]; [done|done|lia]. Qed.

Lemma for_each_rows {D : Type} (h : D → Body.t R → result (Body.t R))
    (g : Body.t R → D → Body.t R) :
  (∀ d b, h d b = Ok (g b d)) →
  ∀ (bs : list (Body.t R)) (pre ds : list D),
    length ds = length bs →
    System.for_each
      (λ b i, match (pre ++ ds) !! i with
              | None => Err IndexError
              | Some d => h d b
              end)
      bs (seq (length pre) (length bs))
    = Done (zip_with g bs ds).
Proof.
  intros Hh. induction bs as [|b bs IH]; intros pre ds Hlen; [done|].
  destruct ds as [|d ds]; [done|]. simpl in Hlen. simpl.
  rewrite list_lookup_middle by done. rewrite Hh.
  specialize (IH (pre ++ [d]) ds).
  rewrite <- app_assoc, length_app in IH. simpl in IH.
  rewrite Nat.add_1_r in IH. rewrite IH by lia. done.
Qed.

Lemma update_rows {D : Type} (h : D → Body.t R → result (Body.t R))
    (g : Body.t R → D → Body.t R) (ds : list D) (s : System.t R) :
  (∀ d b, h d b = Ok (g b d)) →
  system_wf s → length ds = System.n s →
  System.update (λ b i, match ds !! i with
                        | None => Err IndexError
                        | Some d => h d b
                        end) s
  = Done {| System.n := System.n s;
            System.bodies := zip_with g (System.bodies s) ds |}.
Proof.
  intros Hh Hwf Hlen. unfold System.update. rewrite Hwf.
  pose proof (for_each_rows h g Hh (System.bodies s) [] ds) as E.
  simpl in E. rewrite E by (rewrite Hlen, Hwf; done).
  by rewrite <- Hwf.
Qed.

Lemma set_positions_ok (pos : list (vec3 R)) (s : System.t R) :
  system_wf s → length pos = System.n s →
  System.set_positions pos s
  = Done {| System.n := System.n s;
            System.bodies := zip_with move (System.bodies s) pos |}.
Proof.
  intros Hwf Hlen.
  exact (update_rows (λ v a, Ok (move a v)) move pos s (λ _ _, eq_refl) Hwf Hlen).
Qed.

Lemma set_velocities_ok (vel : list (vec3 R)) (s : System.t R) :
  system_wf s → length vel = System.n s →
  System.set_velocities vel s
  = Done {| System.n := System.n s;
            System.bodies := zip_with move (System.bodies s) vel |}.
Proof.
  intros Hwf Hlen.
  exact (update_rows (λ v a, Ok (move a v)) move vel s (λ _ _, eq_refl) Hwf Hlen).
Qed.

Lemma set_integration_results_ok (slot : nat) (rp rv : list (vec3 R)) (s : System.t R) :
  slot < 2 → system_wf s → length rp = System.n s → length rv = System.n s →
  System.set_integration_results slot rp rv s
  = Done {| System.n := System.n s;
            System.bodies := zip_with (put slot) (System.bodies s) (zip rp rv) |}.
Proof.
  intros Hs Hwf Hp Hv. unfold System.set_integration_results.
  rewrite decide_True by congruence.
  apply (update_rows (λ row b, Body.set_integration_result slot row b) (put slot)).
  - intros d b. by apply set_integration_result_put.
  - done.
  - rewrite length_zip_with. lia.
Qed.

Lemma gather_from (slot : nat) (bs : list (Body.t R)) :
  slot < 2 →
  ∀ (k : nat) (data : list (row6 R)),
    k + length bs ≤ length data →
    System.gather slot (zip bs (seq k (length bs))) data
    = Ok (take k data ++ (slot_of slot <$> bs) ++ drop (k + length bs) data).
Proof.
  intros Hs. induction bs as [|b bs IH]; intros k data Hlen; simpl in *.
  - rewrite Nat.add_0_r. by rewrite take_drop.
  - rewrite get_integration_result_slot by done.
    rewrite IH by (rewrite length_insert; lia).
    rewrite (take_S_r _ k (slot_of slot b)) by (apply list_lookup_insert_eq; lia).
    rewrite take_insert_ge by lia.
    rewrite drop_insert_lt by lia.
    replace (S k + length bs) with (k + S (length bs)) by lia.
    by rewrite <- app_assoc.
Qed.

Lemma get_integration_results_ok (slot : nat) (s : System.t R) :
  slot < 2 → system_wf s →
  System.get_integration_results slot s = Ok (slot_of slot <$> System.bodies s).
Proof.
  intros Hs Hwf. unfold System.get_integration_results, System.enum. rewrite Hwf.
  rewrite gather_from by (rewrite ?length_replicate; simpl; lia).
  simpl. rewrite drop_ge by (rewrite length_replicate; lia).
  by rewrite app_nil_r.
Qed.

Lemma history_positions_ok (slot : nat) (s : System.t R) :
  slot < 2 → system_wf s →
  history_positions slot s = Ok ((λ b, fst (slot_of slot b)) <$> System.bodies s).
Proof.
  intros Hs Hwf. unfold history_positions.
  rewrite get_integration_results_ok by done.
  by rewrite <- list_fmap_compose.
Qed.
End SystemLemmas.

(** ** The recorder on a well-formed Trajectory *)

Section TrajectoryLemmas.
Context {R : Type} `{Scalar R}.

Lemma store_rows_from (row : nat) :
  ∀ (todo seen : list (list (vec3 R))) (posd post : list (vec3 R)),
    length seen = length posd →
    length todo ≤ length post →
    Forall (λ buf, row < length buf) todo →
    Trajectory.store_rows (posd ++ post) row (seq (length seen) (length todo)) (seen ++ todo)
    = Done (seen ++ zip_with (store row) todo post).
Proof.
  induction todo as [|buf todo IH]; intros seen posd post Hd Hlen Hall; [done|].
  destruct post as [|v post]; [simpl in Hlen; lia|].
  apply Forall_cons in Hall as [Hbuf Hall]. simpl in Hlen. simpl.
  rewrite Hd at 1. rewrite list_lookup_middle by done.
  rewrite list_lookup_middle by done.
  rewrite decide_True by done.
  rewrite <- (Nat.add_0_r (length seen)) at 2. rewrite insert_app_r. simpl.
  specialize (IH (seen ++ [<[row:=v]> buf]) (posd ++ [v]) post).
  rewrite <- !app_assoc, !length_app in IH. simpl in IH.
  rewrite Nat.add_1_r in IH. rewrite IH; [done|lia|lia|done].
Qed.

Lemma set_trajectory_position_ok (cap : nat) (pos : list (vec3 R)) (tr : Trajectory.t R) :
  trajectory_wf cap tr →
  Trajectory.row_counter tr < cap →
  Trajectory.n_trajectories tr ≤ length pos →
  Trajectory.set_trajectory_position pos tr
  = Done {| Trajectory.trajectories := zip_with (store (Trajectory.row_counter tr))
                                                (Trajectory.trajectories tr) pos;
            Trajectory.n_trajectories := Trajectory.n_trajectories tr;
            Trajectory.row_counter := Trajectory.row_counter tr + 1 |}.
Proof.
  intros [Hn Hall] Hrow Hpos. unfold Trajectory.set_trajectory_position.
  rewrite Hn.
  pose proof (store_rows_from (Trajectory.row_counter tr)
                (Trajectory.trajectories tr) [] [] pos) as E.
  simpl in E. rewrite E; [by rewrite <- Hn|done|lia|].
  eapply Forall_impl; [exact Hall|]. simpl. intros buf ->. done.
Qed.

Lemma set_trajectory_position_full (cap : nat) (pos : list (vec3 R)) (tr : Trajectory.t R) :
  trajectory_wf cap tr →
  Trajectory.row_counter tr = cap →
  0 < Trajectory.n_trajectories tr →
  Trajectory.set_trajectory_position pos tr = Raised IndexError tr.
Proof.
  intros [Hn Hall] Hrow Hpos. unfold Trajectory.set_trajectory_position.
  destruct tr as [trs nt rc]. simpl in *. subst nt rc.
  destruct trs as [|buf trs]; [simpl in Hpos; lia|].
  apply Forall_cons in Hall as [Hbuf Hall]. simpl.
  destruct (pos !! 0); [|done].
  rewrite decide_False by lia. done.
Qed.
End TrajectoryLemmas.

Section RecorderRows.
Context {R : Type} `{Scalar R}.

Lemma store_wf (cap rc : nat) (trs : list (list (vec3 R))) (pos : list (vec3 R)) :
  Forall (λ buf, length buf = cap) trs →
  Forall (λ buf, length buf = cap) (zip_with (store rc) trs pos).
Proof.
  intros Hall. revert pos. induction Hall as [|buf trs Hbuf Hall IH]; intros [|v pos];
    simpl; try constructor; [|by apply IH].
  unfold store. by rewrite length_insert.
Qed.

Lemma recorded_row_store_eq (rc : nat) (trs : list (list (vec3 R))) (pos : list (vec3 R)) :
  Forall (λ buf, rc < length buf) trs →
  length trs = length pos →
  mapM (λ buf : list (vec3 R), buf !! rc) (zip_with (store rc) trs pos) = Some pos.
Proof.
  intros Hall Hlen. apply mapM_Some_2. revert pos Hlen.
  induction Hall as [|buf trs Hbuf Hall IH]; intros [|v pos] Hlen; simpl in *;
    try (exfalso; lia); constructor.
  - unfold store. by apply list_lookup_insert_eq.
  - apply IH. lia.
Qed.

Lemma recorded_row_store_ne (rc r : nat) (trs : list (list (vec3 R))) (pos : list (vec3 R)) :
  r ≠ rc →
  length trs ≤ length pos →
  mapM (λ buf : list (vec3 R), buf !! r) (zip_with (store rc) trs pos)
  = mapM (λ buf : list (vec3 R), buf !! r) trs.
Proof.
  intros Hne. revert pos.
  induction trs as [|buf trs IH]; intros [|v pos] Hlen; simpl in *; try done; [lia|].
  change (store rc buf v) with (<[rc:=v]> buf).
  rewrite list_lookup_insert_ne by congruence.
  rewrite IH by lia. done.
Qed.

Lemma set_trajectory_position_wf (cap : nat) (pos : list (vec3 R)) (tr tr' : Trajectory.t R) :
  trajectory_wf cap tr →
  Trajectory.row_counter tr < cap →
  length pos = Trajectory.n_trajectories tr →
  Trajectory.set_trajectory_position pos tr = Done tr' →
  trajectory_wf cap tr' ∧
  Trajectory.n_trajectories tr' = Trajectory.n_trajectories tr ∧
  Trajectory.row_counter tr' = Trajectory.row_counter tr + 1 ∧
  Trajectory.trajectories tr'
  = zip_with (store (Trajectory.row_counter tr)) (Trajectory.trajectories tr) pos.
Proof.
  intros Hwf Hrow Hpos. rewrite (set_trajectory_position_ok cap) by (done || lia).
  intros [= <-]. simpl. destruct Hwf as [Hn Hall].
  repeat split; simpl; [|by apply store_wf].
  rewrite length_zip_with. lia.
Qed.

Lemma record_all_from (nb cap : nat) :
  ∀ (ps : list (list (vec3 R))) (tr : Trajectory.t R),
    trajectory_wf cap tr →
    Trajectory.n_trajectories tr = nb →
    Trajectory.row_counter tr + length ps ≤ cap →
    Forall (λ p, length p = nb) ps →
    ∃ tr', record_all ps tr = Done tr' ∧
           trajectory_wf cap tr' ∧
           Trajectory.n_trajectories tr' = nb ∧
           Trajectory.row_counter tr' = Trajectory.row_counter tr + length ps ∧
           ∀ b buf, Trajectory.trajectories tr !! b = Some buf →
             ∃ col, passed_for b ps = Some col ∧
                    Trajectory.trajectories tr' !! b
                    = Some (take (Trajectory.row_counter tr) buf ++ col
                             ++ drop (Trajectory.row_counter tr + length ps) buf).
Proof.
  induction ps as [|p ps IH]; intros tr Hwf Hnb Hrow Hall.
  - exists tr. simpl. repeat split; try done; try lia; try apply Hwf.
    intros b buf Hb. exists []. split; [done|].
    rewrite Nat.add_0_r. simpl. by rewrite take_drop.
  - apply Forall_cons in Hall as [Hp Hall]. simpl in Hrow. simpl.
    rewrite (set_trajectory_position_ok cap) by (done || lia).
    set (tr1 := {| Trajectory.trajectories := _ |}).
    destruct (set_trajectory_position_wf cap p tr tr1) as (Hwf1 & Hn1 & Hrc1 & Htrs1);
      [done|lia|lia|by rewrite (set_trajectory_position_ok cap) by (done || lia)|].
    destruct (IH tr1) as (tr' & Hrun & Hwf' & Hn' & Hrc' & Hcols);
      [done|lia|rewrite Hrc1; lia|done|].
    exists tr'. split; [done|]. split; [done|]. split; [done|].
    split; [rewrite Hrc', Hrc1; lia|].
    intros b buf Hb.
    assert (b < length p) as Hbp.
    { destruct Hwf as [Hn _]. apply lookup_lt_Some in Hb. lia. }
    destruct (lookup_lt_is_Some_2 p b Hbp) as [v Hv].
    destruct (Hcols b (<[Trajectory.row_counter tr := v]> buf)) as (col & Hcol & Hlook).
    { rewrite Htrs1, lookup_zip_with, Hb. simpl. by rewrite Hv. }
    exists (v :: col). split.
    + unfold passed_for in *. simpl. rewrite Hv. simpl. by rewrite Hcol.
    + rewrite Hlook, Hrc1.
      assert (Trajectory.row_counter tr < length buf) as Hlt.
      { destruct Hwf as [_ Hlens]. rewrite Forall_lookup in Hlens.
        rewrite (Hlens b buf Hb). lia. }
      rewrite Nat.add_1_r.
      rewrite (take_S_r _ _ v) by (by apply list_lookup_insert_eq).
      rewrite take_insert_ge by lia.
      rewrite drop_insert_lt by lia.
      replace (S (Trajectory.row_counter tr) + length ps)
        with (Trajectory.row_counter tr + S (length ps)) by lia.
      by rewrite <- app_assoc.
Qed.

Lemma init_wf (nb cap : nat) : trajectory_wf cap (Trajectory.init (R := R) nb cap).
Proof.
  split; simpl.
  - by rewrite length_replicate.
  - apply Forall_replicate. unfold zeros_n3. by rewrite length_replicate.
Qed.
End RecorderRows.

(** ** One iteration of the loop *)

Section StepLemmas.
Context {R : Type} `{Scalar R}.

Lemma mod2_cases (k : nat) :
  (k `mod` 2 = 0 ∧ (k + 1) `mod` 2 = 1) ∨ (k `mod` 2 = 1 ∧ (k + 1) `mod` 2 = 0).
Proof.
  pose proof (Nat.div_mod_eq k 2). pose proof (Nat.div_mod_eq (k + 1) 2).
  pose proof (Nat.mod_upper_bound k 2). pose proof (Nat.mod_upper_bound (k + 1) 2).
  lia.
Qed.

Lemma slot_positions_length (slot : nat) (s : System.t R) :
  length (slot_positions slot s) = length (System.bodies s).
Proof. unfold slot_positions. by rewrite length_fmap. Qed.

Lemma bootstrap_length (q0 p0 A : list (vec3 R)) (n : nat) :
  length q0 = n → length p0 = n → length A = n → length (bootstrap q0 p0 A) = n.
Proof.
  intros Hq Hp HA. unfold bootstrap, mzip, mmap.
  rewrite !length_zip_with, !length_fmap. lia.
Qed.

Lemma stormer_length (qn qn1 A : list (vec3 R)) (n : nat) :
  length qn = n → length qn1 = n → length A = n → length (stormer qn qn1 A) = n.
Proof.
  intros Hq Hp HA. unfold stormer, mzip, mmap.
  rewrite !length_zip_with, !length_fmap. lia.
Qed.

Lemma new_positions_length (p0 : list (vec3 R)) (k : nat) (s : System.t R) :
  system_wf s → length p0 = System.n s →
  length (new_positions p0 k s) = System.n s.
Proof.
  intros Hwf Hp. unfold new_positions. destruct k as [|[|k]].
  - rewrite get_positions_wf by done. by rewrite length_fmap.
  - apply bootstrap_length; [|done|apply get_accelerations_length].
    by rewrite slot_positions_length.
  - apply stormer_length; [| |apply get_accelerations_length];
      by rewrite slot_positions_length.
Qed.

Lemma move_put_get_position (slot : nat) (b : Body.t R) (p : vec3 R) :
  move (put slot b (Body.get_position b, p)) (Body.get_position b)
  = put slot b (Body.get_position b, p).
Proof. destruct b, slot; reflexivity. Qed.

Lemma zip_with_move_id (slot : nat) (bs : list (Body.t R)) :
  ∀ p0 : list (vec3 R),
    zip_with move (zip_with (put slot) bs (zip (Body.get_position <$> bs) p0))
             (Body.get_position <$> bs)
    = zip_with (put slot) bs (zip (Body.get_position <$> bs) p0).
Proof.
  induction bs as [|b bs IH]; intros [|p p0]; simpl; try done.
  f_equal; [apply move_put_get_position|apply IH].
Qed.

Lemma put_wf (slot : nat) (q p0 : list (vec3 R)) (s : System.t R) :
  system_wf s → length q = System.n s → length p0 = System.n s →
  system_wf {| System.n := System.n s;
               System.bodies := zip_with (put slot) (System.bodies s) (zip q p0) |}.
Proof.
  intros Hwf Hq Hp. unfold system_wf in *. simpl.
  rewrite !length_zip_with. lia.
Qed.

Lemma advance_ok (rows older newer : nat) (p0 : list (vec3 R)) (st : state R) :
  older < 2 → newer < 2 →
  system_wf (sol st) → trajectory_wf rows (tra st) →
  Trajectory.n_trajectories (tra st) = System.n (sol st) →
  Trajectory.row_counter (tra st) < rows →
  length p0 = System.n (sol st) →
  advance older newer p0 st
  = Done (after_step older
            (stormer (slot_positions newer (sol st)) (slot_positions older (sol st))
                     (System.get_accelerations (sol st)))
            p0 st).
Proof.
  intros Ho Hn Hwf Htr Hnt Hrc Hp. unfold advance.
  rewrite !history_positions_ok by done.
  fold (slot_positions older (sol st)). fold (slot_positions newer (sol st)).
  set (qplus := stormer _ _ _).
  assert (length qplus = System.n (sol st)) as Hq.
  { apply stormer_length; [| |apply get_accelerations_length];
      by rewrite slot_positions_length. }
  unfold on_tra. rewrite (set_trajectory_position_ok rows) by (done || lia).
  cbn [outcome_map outcome_bind]. unfold on_sol. cbn [sol tra].
  rewrite set_integration_results_ok by done.
  cbn [outcome_map outcome_bind]. cbn [sol tra].
  rewrite set_positions_ok by (by apply put_wf || done).
  reflexivity.
Qed.

Lemma step_ok (rows : nat) (p0 : list (vec3 R)) (k : nat) (st : state R) :
  system_wf (sol st) → trajectory_wf rows (tra st) →
  Trajectory.n_trajectories (tra st) = System.n (sol st) →
  Trajectory.row_counter (tra st) < rows →
  length p0 = System.n (sol st) →
  step p0 k st = Done (after_step (k `mod` 2) (new_positions p0 k (sol st)) p0 st).
Proof.
  intros Hwf Htr Hnt Hrc Hp. unfold step.
  destruct k as [|[|k]].
  - rewrite decide_True by done. cbn [new_positions].
    assert (length (System.get_positions (sol st)) = System.n (sol st)) as Hq
      by (by apply (new_positions_length p0 0)).
    unfold on_sol. rewrite set_integration_results_ok by (done || lia).
    cbn [outcome_map outcome_bind]. unfold on_tra. cbn [sol tra].
    rewrite (set_trajectory_position_ok rows) by (done || lia).
    cbn [outcome_map]. unfold after_step. change (0 `mod` 2) with 0.
    rewrite get_positions_wf by done. by rewrite zip_with_move_id.
  - rewrite decide_False by done. rewrite decide_True by done. cbn [new_positions].
    rewrite history_positions_ok by (done || lia).
    fold (slot_positions 0 (sol st)).
    set (q1 := bootstrap _ _ _).
    assert (length q1 = System.n (sol st)) as Hq
      by (by apply (new_positions_length p0 1)).
    unfold on_sol. rewrite set_integration_results_ok by (done || lia).
    cbn [outcome_map outcome_bind]. unfold on_tra. cbn [sol tra].
    rewrite (set_trajectory_position_ok rows) by (done || lia).
    cbn [outcome_map outcome_bind]. cbn [sol tra].
    rewrite set_positions_ok by (by apply put_wf || done).
    reflexivity.
  - rewrite decide_False by done. rewrite decide_False by done.
    change (new_positions p0 (S (S k)) (sol st))
      with (stormer (slot_positions ((S (S k) + 1) `mod` 2) (sol st))
                    (slot_positions (S (S k) `mod` 2) (sol st))
                    (System.get_accelerations (sol st))).
    destruct (mod2_cases (S (S k))) as [[E0 E1]|[E0 E1]]; rewrite E0, E1.
    + rewrite decide_True by done. apply (advance_ok rows); done || lia.
    + rewrite decide_False by done. rewrite decide_True by done.
      apply (advance_ok rows); done || lia.
Qed.
End StepLemmas.

(** ** The bodies after an iteration *)

Section AfterStep.
Context {R : Type} `{Scalar R}.

Local Ltac by_rows bs :=
  let b := fresh "b" in
  let IH := fresh "IH" in
  induction bs as [|b bs IH]; intros [|? ?] [|? ?] ? ?; simpl in *;
  try done; try (exfalso; lia); f_equal; [|apply IH; lia].

(** Whatever neither set_position nor a write to slot [slot] touches. *)
Lemma after_bodies_frame {A : Type} (g : Body.t R → A) (slot : nat)
    (bs : list (Body.t R)) :
  (∀ b row v, g (move (put slot b row) v) = g b) →
  ∀ q p0 : list (vec3 R),
    length q = length bs → length p0 = length bs →
    g <$> zip_with move (zip_with (put slot) bs (zip q p0)) q = g <$> bs.
Proof. intros Hg. by_rows bs. apply Hg. Qed.

Lemma after_bodies_position (slot : nat) (bs : list (Body.t R)) :
  ∀ q p0 : list (vec3 R),
    length q = length bs → length p0 = length bs →
    Body.get_position <$> zip_with move (zip_with (put slot) bs (zip q p0)) q = q.
Proof. by_rows bs. by destruct v. Qed.

Lemma after_bodies_slot (slot : nat) (bs : list (Body.t R)) :
  ∀ q p0 : list (vec3 R),
    length q = length bs → length p0 = length bs →
    slot_of slot <$> zip_with move (zip_with (put slot) bs (zip q p0)) q = zip q p0.
Proof. by_rows bs. by destruct slot. Qed.

Lemma slot_of_other (slot slot' : nat) (b : Body.t R) (row : row6 R) (v : vec3 R) :
  slot < 2 → slot' < 2 → slot ≠ slot' →
  slot_of slot' (move (put slot b row) v) = slot_of slot' b.
Proof.
  intros Hs Hs' Hne.
  destruct slot as [|[|?]], slot' as [|[|?]]; try lia; reflexivity.
Qed.

Lemma mod2_succ (k : nat) :
  S k `mod` 2 = (k + 1) `mod` 2 ∧ (S k + 1) `mod` 2 = k `mod` 2.
Proof.
  pose proof (Nat.div_mod_eq k 2). pose proof (Nat.div_mod_eq (S k + 1) 2).
  pose proof (Nat.mod_upper_bound k 2). pose proof (Nat.mod_upper_bound (S k + 1) 2).
  split; [f_equal|]; lia.
Qed.

Lemma mod2_lt (k : nat) : k `mod` 2 < 2.
Proof. apply Nat.mod_upper_bound. lia. Qed.

Lemma mod2_other (k : nat) : k `mod` 2 ≠ (k + 1) `mod` 2.
Proof. destruct (mod2_cases k) as [[-> ->]|[-> ->]]; lia. Qed.
End AfterStep.

(** ** The loop keeps [run_inv] *)

Section RunLemmas.
Context {R : Type} `{Scalar R}.

Lemma loop_app (p0 : list (vec3 R)) (ks1 ks2 : list nat) :
  ∀ st : state R,
    loop p0 (ks1 ++ ks2) st
    = match loop p0 ks1 st with
      | Done st' => loop p0 ks2 st'
      | Raised e st' => Raised e st'
      end.
Proof.
  induction ks1 as [|k ks1 IH]; intros st; simpl; [done|].
  destruct (step p0 k st); [apply IH|done].
Qed.

Lemma get_velocities_length (s : System.t R) :
  system_wf s → length (System.get_velocities s) = System.n s.
Proof. intros Hwf. rewrite get_velocities_wf by done. by rewrite length_fmap. Qed.

Lemma slot_positions_fst (slot : nat) (s : System.t R) :
  slot_positions slot s = fst <$> (slot_of slot <$> System.bodies s).
Proof. unfold slot_positions. by rewrite <- list_fmap_compose. Qed.

Lemma history_velocities_snd (slot : nat) (s : System.t R) :
  history_velocities slot s = snd <$> (slot_of slot <$> System.bodies s).
Proof. unfold history_velocities. by rewrite <- list_fmap_compose. Qed.

Lemma run_inv_start (s0 : System.t R) (rows : nat) :
  system_wf s0 → run_inv s0 rows 0 (start rows s0).
Proof.
  intros Hwf. split; simpl; try done; try (intros; lia).
  - apply init_wf.
Qed.

Lemma run_inv_step (s0 : System.t R) (rows k : nat) (st : state R) :
  system_wf s0 → run_inv s0 rows k st → k < rows →
  run_inv s0 rows (S k)
    (after_step (k `mod` 2)
       (new_positions (System.get_velocities s0) k (sol st))
       (System.get_velocities s0) st).
Proof.
  intros Hwf0 Hinv Hk.
  pose proof (inv_wf _ _ _ _ Hinv) as Hwf. pose proof (inv_n _ _ _ _ Hinv) as Hn.
  pose proof (inv_tra _ _ _ _ Hinv) as [Hlen Hbufs].
  pose proof (inv_nt _ _ _ _ Hinv) as Hnt. pose proof (inv_rc _ _ _ _ Hinv) as Hrc.
  set (p0 := System.get_velocities s0).
  assert (length p0 = System.n (sol st)) as Hp
    by (unfold p0; rewrite get_velocities_length by done; lia).
  set (q := new_positions p0 k (sol st)).
  assert (length q = System.n (sol st)) as Hq by (by apply new_positions_length).
  assert (system_wf (sol (after_step (k `mod` 2) q p0 st))) as Hwf'.
  { unfold system_wf in *. simpl. rewrite !length_zip_with. lia. }
  assert (System.get_positions (sol (after_step (k `mod` 2) q p0 st)) = q) as Hpos'.
  { rewrite get_positions_wf by done. simpl.
    apply after_bodies_position; unfold system_wf in Hwf; lia. }
  assert (∀ slot, slot < 2 →
            slot_of slot <$> System.bodies (sol (after_step (k `mod` 2) q p0 st))
            = if decide (slot = k `mod` 2) then zip q p0
              else slot_of slot <$> System.bodies (sol st)) as Hslots.
  { intros slot Hslot. simpl. case_decide as Hd.
    - subst slot. apply after_bodies_slot; unfold system_wf in Hwf; lia.
    - apply after_bodies_frame; [|unfold system_wf in Hwf; lia..].
      intros b row v. apply slot_of_other; [apply mod2_lt|done|congruence]. }
  destruct (mod2_succ k) as [ES ESS]. pose proof (mod2_other k) as Hother.
  pose proof (mod2_lt k) as Hlt0. pose proof (mod2_lt (k + 1)) as Hlt1.
  split.
  - done.
  - simpl. done.
  - split; simpl.
    + rewrite length_zip_with. lia.
    + by apply store_wf.
  - simpl. done.
  - simpl. lia.
  - rewrite <- (inv_vel _ _ _ _ Hinv). cbn [sol after_step System.bodies].
    apply after_bodies_frame; [|unfold system_wf in Hwf; lia..].
    intros b row v. by destruct (k `mod` 2).
  - rewrite <- (inv_mass _ _ _ _ Hinv). cbn [sol after_step System.bodies].
    apply after_bodies_frame; [|unfold system_wf in Hwf; lia..].
    intros b row v. by destruct (k `mod` 2).
  - intros; lia.
  - intros _. rewrite Hpos'. replace (S k - 1) with k by lia.
    unfold recorded_row. simpl. rewrite Hrc.
    apply recorded_row_store_eq; [|lia].
    eapply Forall_impl; [exact Hbufs|]. simpl. intros buf ->. done.
  - intros _. rewrite Hpos', ESS. rewrite slot_positions_fst.
    rewrite Hslots by done. rewrite decide_True by done.
    apply (fst_zip q p0). lia.
  - intros Hk1. rewrite ES. rewrite slot_positions_fst.
    rewrite Hslots by done. rewrite decide_False by congruence.
    rewrite <- slot_positions_fst.
    rewrite (inv_newer _ _ _ _ Hinv) by lia.
    rewrite <- (inv_pos _ _ _ _ Hinv) by lia.
    replace (S k - 2) with (k - 1) by lia.
    unfold recorded_row. simpl. rewrite Hrc.
    apply recorded_row_store_ne; lia.
  - intros _. rewrite ESS. rewrite history_velocities_snd.
    rewrite Hslots by done. rewrite decide_True by done.
    apply (snd_zip q p0). lia.
  - intros Hk1. rewrite ES. rewrite history_velocities_snd.
    rewrite Hslots by done. rewrite decide_False by congruence.
    rewrite <- history_velocities_snd.
    apply (inv_newer_vel _ _ _ _ Hinv). lia.
Qed.

Lemma run_steps_inv (s0 : System.t R) (rows : nat) :
  system_wf s0 →
  ∀ k, k ≤ rows → ∃ st, run_steps rows k s0 = Done st ∧ run_inv s0 rows k st.
Proof.
  intros Hwf0. induction k as [|k IH]; intros Hk.
  - exists (start rows s0). split; [done|by apply run_inv_start].
  - destruct IH as (st & Hrun & Hinv); [lia|].
    eexists. split; [|apply (run_inv_step s0 rows k st); done || lia].
    unfold run_steps in *. rewrite seq_S, loop_app, Hrun. simpl.
    rewrite (step_ok rows); [done|apply Hinv|apply Hinv| | |].
    + rewrite (inv_nt _ _ _ _ Hinv). symmetry. apply Hinv.
    + rewrite (inv_rc _ _ _ _ Hinv). lia.
    + rewrite get_velocities_length by done. symmetry. apply Hinv.
Qed.
(** The whole loop runs to its end and fills the recorder: the script's
    700 iterations raise nothing on a well-formed System. *)
Lemma run_completes (s0 : System.t R) (rows : nat) :
  system_wf s0 →
  ∃ st, run rows s0 = Done st ∧ Trajectory.row_counter (tra st) = rows.
Proof.
  intros Hwf0. destruct (run_steps_inv s0 rows Hwf0 rows) as (st & Hrun & Hinv); [lia|].
  exists st. split; [done|apply Hinv].
Qed.

Lemma script_run_completes (s0 : System.t R) :
  system_wf s0 →
  ∃ st, run n_rows s0 = Done st ∧ Trajectory.row_counter (tra st) = n_rows.
Proof. apply run_completes. Qed.
End RunLemmas.


(** ** From one iteration to the next *)

Section Successor.
Context {R : Type} `{Scalar R}.

Lemma after_step_positions (slot : nat) (q p0 : list (vec3 R)) (st : state R) :
  system_wf (sol st) →
  length q = System.n (sol st) → length p0 = System.n (sol st) →
  System.get_positions (sol (after_step slot q p0 st)) = q.
Proof.
  intros Hwf Hq Hp. rewrite get_positions_wf.
  - cbn [sol after_step System.bodies].
    apply after_bodies_position; unfold system_wf in Hwf; lia.
  - unfold system_wf in *. cbn [sol after_step System.bodies System.n].
    rewrite !length_zip_with. lia.
Qed.

Lemma after_step_slot_positions (slot slot' : nat) (q p0 : list (vec3 R)) (st : state R) :
  system_wf (sol st) →
  length q = System.n (sol st) → length p0 = System.n (sol st) →
  slot < 2 → slot' < 2 →
  slot_positions slot' (sol (after_step slot q p0 st))
  = if decide (slot' = slot) then q else slot_positions slot' (sol st).
Proof.
  intros Hwf Hq Hp Hs Hs'. rewrite !slot_positions_fst.
  cbn [sol after_step System.bodies]. case_decide as Hd.
  - subst slot'. rewrite after_bodies_slot by (unfold system_wf in Hwf; lia).
    apply fst_zip. lia.
  - f_equal. apply after_bodies_frame; [|unfold system_wf in Hwf; lia..].
    intros b row v. apply slot_of_other; [done|done|congruence].
Qed.

Lemma run_steps_next (s0 : System.t R) (rows k : nat) (st : state R) :
  system_wf s0 → k < rows →
  run_steps rows k s0 = Done st →
  run_inv s0 rows k st ∧
  run_steps rows (S k) s0
  = Done (after_step (k `mod` 2)
            (new_positions (System.get_velocities s0) k (sol st))
            (System.get_velocities s0) st).
Proof.
  intros Hwf0 Hk Hrun.
  destruct (run_steps_inv s0 rows Hwf0 k) as (st0 & Hrun0 & Hinv); [lia|].
  rewrite Hrun in Hrun0. injection Hrun0 as <-. split; [done|].
  unfold run_steps in *. rewrite seq_S, loop_app, Hrun. simpl.
  rewrite (step_ok rows); [done|apply Hinv|apply Hinv| | |].
  - rewrite (inv_nt _ _ _ _ Hinv). symmetry. apply Hinv.
  - rewrite (inv_rc _ _ _ _ Hinv). lia.
  - rewrite get_velocities_length by done. symmetry. apply Hinv.
Qed.

(** Row [i] of 2*qn-qn1 + A*dt2, written out. *)
Lemma stormer_lookup (qn qn1 A : list (vec3 R)) (i : nat) (a b c : vec3 R) :
  qn !! i = Some a → qn1 !! i = Some b → A !! i = Some c →
  stormer qn qn1 A !! i
  = Some (Vec3 (add (sub (mul (of_int 2) (c0 a)) (c0 b)) (mul (c0 c) (of_int dt2)))
               (add (sub (mul (of_int 2) (c1 a)) (c1 b)) (mul (c1 c) (of_int dt2)))
               (add (sub (mul (of_int 2) (c2 a)) (c2 b)) (mul (c2 c) (of_int dt2)))).
Proof.
  intros Ha Hb Hc. unfold stormer, mzip, mmap.
  rewrite !lookup_zip_with, !list_lookup_fmap, Ha, Hb, Hc. reflexivity.
Qed.

Lemma ke_determined (b b' : Body.t R) :
  Body.mass b = Body.mass b' → Body.get_velocity b = Body.get_velocity b' →
  Body.ke b = Body.ke b'.
Proof.
  intros Hm Hv. unfold Body.get_velocity in Hv. injection Hv as Hx Hy Hz.
  unfold Body.ke. by rewrite Hm, Hx, Hy, Hz.
Qed.

Lemma ke_preserved (bs bs' : list (Body.t R)) :
  Body.mass <$> bs = Body.mass <$> bs' →
  Body.get_velocity <$> bs = Body.get_velocity <$> bs' →
  Body.ke <$> bs = Body.ke <$> bs'.
Proof.
  revert bs'. induction bs as [|b bs IH]; intros [|b' bs'] Hm Hv;
    rewrite ?fmap_nil, ?fmap_cons in *; try done.
  apply (f_equal head) in Hm as Hm1. apply (f_equal tail) in Hm as Hm2.
  apply (f_equal head) in Hv as Hv1. apply (f_equal tail) in Hv as Hv2.
  simpl in Hm1, Hm2, Hv2. cbn [head] in Hv1.
  f_equal; [apply ke_determined; congruence|by apply IH].
Qed.
End Successor.


(** ** Construction *)

Section Construction.
Context {R : Type} `{Scalar R}.

Lemma collect_Forall2 {A : Type} (f : nat → result A) (P : nat → A → Prop) (idx : list nat) :
  (∀ i, i ∈ idx → ∃ a, f i = Ok a ∧ P i a) →
  ∃ l, System.collect f idx = Ok l ∧ Forall2 P idx l.
Proof.
  induction idx as [|i idx IH]; intros Hf.
  - exists []. split; [done|constructor].
  - destruct (Hf i) as (a & Ha & HP); [apply list_elem_of_here|].
    destruct IH as (l & Hl & HPl).
    { intros j Hj. apply Hf. by apply list_elem_of_further. }
    exists (a :: l). simpl. rewrite Ha, Hl. split; [done|by constructor].
Qed.

Lemma make_body_ok (names : list string) (posvel : list (list R))
    (masses gms radii : list R) (i : nat) :
  length posvel = length names → length masses = length names →
  length gms = length names → length radii = length names →
  Forall (λ row, length row = 6) posvel →
  i < length names →
  ∃ b, System.make_body names posvel masses gms radii i = Ok b ∧
       masses !! i = Some (Body.mass b).
Proof.
  intros Hpv Hm Hg Hr Hrows Hi. unfold System.make_body.
  destruct (lookup_lt_is_Some_2 names i) as [nm ->]; [lia|].
  destruct (lookup_lt_is_Some_2 posvel i) as [pv Epv]; [lia|]. rewrite Epv.
  destruct (lookup_lt_is_Some_2 masses i) as [m ->]; [lia|].
  destruct (lookup_lt_is_Some_2 gms i) as [gm ->]; [lia|].
  destruct (lookup_lt_is_Some_2 radii i) as [rad ->]; [lia|].
  rewrite Forall_lookup in Hrows. specialize (Hrows i pv Epv).
  destruct pv as [|a1 [|a2 [|a3 [|a4 [|a5 [|a6 [|a7 pv]]]]]]]; simpl in Hrows; try lia.
  eexists. split; [reflexivity|reflexivity].
Qed.

Lemma masses_of_Forall2 (masses : list R) (bs : list (Body.t R)) :
  length masses = length bs →
  Forall2 (λ i b, masses !! i = Some (Body.mass b)) (seq 0 (length bs)) bs →
  Body.mass <$> bs = masses.
Proof.
  intros Hlen HF. apply list_eq. intros j. rewrite list_lookup_fmap.
  destruct (bs !! j) as [b|] eqn:Eb; simpl.
  - assert (seq 0 (length bs) !! j = Some j) as Ej.
    { apply lookup_seq. split; [done|]. by apply lookup_lt_Some in Eb. }
    symmetry. exact (Forall2_lookup_lr _ _ _ _ _ _ HF Ej Eb).
  - symmetry. apply lookup_ge_None. apply lookup_ge_None in Eb. lia.
Qed.
Lemma collect_length {A : Type} (f : nat → result A) (idx : list nat) :
  ∀ l, System.collect f idx = Ok l → length l = length idx.
Proof.
  induction idx as [|i idx IH]; intros l; simpl.
  - by intros [= <-].
  - destruct (f i) as [a|e]; [|done].
    destruct (System.collect f idx) as [l'|e]; [|done].
    intros [= <-]. simpl. f_equal. by apply IH.
Qed.

(** Every System that System.__init__ returns has self.n = len(self.bodies). *)
Lemma system_init_wf (names : list string) (posvel : list (list R))
    (masses gms radii : list R) (s : System.t R) :
  System.init names posvel masses gms radii = Ok s → system_wf s.
Proof.
  unfold System.init.
  destruct (System.collect _ _) as [bs|e] eqn:E; [|done].
  intros [= <-]. unfold system_wf. simpl.
  apply collect_length in E. rewrite E. by rewrite length_seq.
Qed.
End Construction.

(** * The claims *)

(** ** C4: construction and the mass *)




(** ** C5 and C9: the recorder *)

(** C5, as the code has it: the error on a full recorder comes from the
    row index of the first buffer, so it takes at least one buffer.  With
    a buffer per body (at least one) and [cap] rows each, a call with
    row_counter = cap raises IndexError and leaves the recorder as it was;
    a call with row_counter < cap succeeds, stores the row of every body at
    index row_counter, leaves every other row alone and adds 1 to
    row_counter. *)
Theorem record_capacity {R : Type} `{Scalar R}
    (cap : nat) (pos : list (vec3 R)) (tr : Trajectory.t R) :
  trajectory_wf cap tr →
  0 < Trajectory.n_trajectories tr →
  length pos = Trajectory.n_trajectories tr →
  (Trajectory.row_counter tr = cap →
     Trajectory.set_trajectory_position pos tr = Raised IndexError tr) ∧
  (Trajectory.row_counter tr < cap →
     ∃ tr', Trajectory.set_trajectory_position pos tr = Done tr' ∧
            trajectory_wf cap tr' ∧
            Trajectory.n_trajectories tr' = Trajectory.n_trajectories tr ∧
            Trajectory.row_counter tr' = Trajectory.row_counter tr + 1 ∧
            recorded_row (Trajectory.row_counter tr) tr' = Some pos ∧
            ∀ r, r ≠ Trajectory.row_counter tr → recorded_row r tr' = recorded_row r tr).
Proof.
  intros Hwf Hn Hpos. split.
  - intros Hfull. by apply (set_trajectory_position_full cap).
  - intros Hrow.
    rewrite (set_trajectory_position_ok cap) by (done || lia).
    eexists. split; [reflexivity|].
    destruct (set_trajectory_position_wf cap pos tr _ Hwf Hrow Hpos
                (set_trajectory_position_ok cap pos tr Hwf Hrow ltac:(lia)))
      as (Hwf' & Hn' & Hrc' & Htrs').
    split; [done|]. split; [done|]. split; [done|].
    destruct Hwf as [Hlen Hbufs]. unfold recorded_row. simpl. split.
    + apply recorded_row_store_eq; [|lia].
      eapply Forall_impl; [exact Hbufs|]. simpl. intros buf ->. done.
    + intros r Hr. apply recorded_row_store_ne; [done|lia].
Qed.

(** C5, witness: one body, two rows, first on the empty recorder (the call
    succeeds) and then on the full one (the call raises). *)
Lemma record_capacity_witness :
  (∃ tr', Trajectory.set_trajectory_position [Vec3 1 2 3]%float (Trajectory.init 1 2) = Done tr' ∧
          Trajectory.row_counter tr' = 1) ∧
  Trajectory.set_trajectory_position [Vec3 1 2 3]%float
    {| Trajectory.trajectories := [[Vec3 7 8 9; Vec3 4 5 6]%float];
       Trajectory.n_trajectories := 1;
       Trajectory.row_counter := 2 |}
  = Raised IndexError
      {| Trajectory.trajectories := [[Vec3 7 8 9; Vec3 4 5 6]%float];
         Trajectory.n_trajectories := 1;
         Trajectory.row_counter := 2 |}.
Proof.
  split.
  - destruct (record_capacity (R := float) 2 [Vec3 1 2 3]%float (Trajectory.init 1 2))
      as [_ Hok].
    + apply init_wf.
    + simpl. lia.
    + reflexivity.
    + destruct Hok as (tr' & Hrun & _ & _ & Hrc & _); [simpl; lia|].
      exists tr'. split; [exact Hrun|exact Hrc].
  - refine (proj1 (record_capacity (R := float) 2 [Vec3 1 2 3]%float _ _ _ _) _).
    + split; [reflexivity|]. repeat constructor.
    + simpl. lia.
    + reflexivity.
    + reflexivity.
Defined.

(** C5, counterexample: a recorder for zero bodies with two rows.  Two calls
    fill it (row_counter = 2 = n_rows); the third call does not fail, and
    moves row_counter to 3. *)
Lemma record_without_buffers_never_fails :
  trajectory_wf 2 {| Trajectory.trajectories := @nil (list (vec3 float));
                     Trajectory.n_trajectories := 0;
                     Trajectory.row_counter := 2 |} ∧
  record_all [[]; []] (Trajectory.init (R := float) 0 2)
  = Done {| Trajectory.trajectories := [];
            Trajectory.n_trajectories := 0;
            Trajectory.row_counter := 2 |} ∧
  Trajectory.set_trajectory_position []
    {| Trajectory.trajectories := @nil (list (vec3 float));
       Trajectory.n_trajectories := 0;
       Trajectory.row_counter := 2 |}
  = Done {| Trajectory.trajectories := [];
            Trajectory.n_trajectories := 0;
            Trajectory.row_counter := 3 |}.
Proof.
  split; [|split; reflexivity].
  split; [reflexivity|constructor].
Qed.

(** C9: on a fresh Trajectory for [nb] bodies with [cap] rows, [k ≤ cap]
    calls to record, each with an nb x 3 array, all succeed; afterwards
    row_counter is [k] and, for every body index [b], the first [k] rows of
    get(b) are the rows passed for [b], in call order. *)
Theorem trajectory_append_law {R : Type} `{Scalar R}
    (nb cap : nat) (ps : list (list (vec3 R))) :
  length ps ≤ cap →
  Forall (λ p, length p = nb) ps →
  ∃ tr, record_all ps (Trajectory.init nb cap) = Done tr ∧
        Trajectory.row_counter tr = length ps ∧
        ∀ b, b < nb →
          ∃ buf col, Trajectory.get_trajectory b tr = Ok buf ∧
                     length buf = cap ∧
                     passed_for b ps = Some col ∧
                     take (length ps) buf = col.
Proof.
  intros Hk Hps.
  destruct (record_all_from nb cap ps (Trajectory.init nb cap))
    as (tr & Hrun & Hwf & Hn & Hrc & Hcols); [apply init_wf|done|simpl; lia|done|].
  exists tr. split; [done|]. split; [by rewrite Hrc|].
  intros b Hb.
  destruct (Hcols b (zeros_n3 cap)) as (col & Hcol & Hbuf).
  { simpl. by apply lookup_replicate_2. }
  simpl in Hbuf. exists (col ++ drop (length ps) (zeros_n3 cap)), col.
  unfold Trajectory.get_trajectory. rewrite Hbuf.
  assert (length col = length ps) as Hlen.
  { unfold passed_for in Hcol. symmetry. exact (length_mapM _ _ _ Hcol). }
  split; [done|]. split; [|split; [done|]].
  - rewrite length_app, length_drop. unfold zeros_n3. rewrite length_replicate. lia.
  - rewrite take_app_length'; done.
Qed.

(** C9, witness: two bodies, three rows, two calls. *)
Lemma trajectory_append_law_witness :
  ∃ tr, record_all [[Vec3 1 2 3; Vec3 4 5 6]; [Vec3 7 8 9; Vec3 10 11 12]]%float
                   (Trajectory.init 2 3) = Done tr ∧
        Trajectory.row_counter tr = 2 ∧
        ∃ buf, Trajectory.get_trajectory 1 tr = Ok buf ∧
               take 2 buf = [Vec3 4 5 6; Vec3 10 11 12]%float.
Proof.
  destruct (trajectory_append_law (R := float) 2 3
              [[Vec3 1 2 3; Vec3 4 5 6]; [Vec3 7 8 9; Vec3 10 11 12]]%float)
    as (tr & Hrun & Hrc & Hcols).
  - simpl. lia.
  - repeat constructor.
  - exists tr. split; [exact Hrun|]. split; [exact Hrc|].
    destruct (Hcols 1) as (buf & col & Hget & _ & Hcol & Htake); [lia|].
    exists buf. split; [exact Hget|].
    simpl in Hcol. injection Hcol as <-. exact Htake.
Defined.

(** ** C6 and C7: the loop *)



(** C7: after any number [k] of iterations, the velocities of the bodies
    are those the System started with, and so are their kinetic energies;
    the velocity part of every history slot written so far (slot 0 from the
    first iteration on, slot 1 from the second) is the initial velocity
    array p0, unchanged. *)
Theorem velocity_never_updated {R : Type} `{Scalar R} (s0 : System.t R) (rows k : nat) :
  system_wf s0 → k ≤ rows →
  ∃ st, run_steps rows k s0 = Done st ∧
        System.get_velocities (sol st) = System.get_velocities s0 ∧
        Body.ke <$> System.bodies (sol st) = Body.ke <$> System.bodies s0 ∧
        (1 ≤ k → history_velocities 0 (sol st) = System.get_velocities s0) ∧
        (2 ≤ k → history_velocities 1 (sol st) = System.get_velocities s0).
Proof.
  intros Hwf0 Hk.
  destruct (run_steps_inv s0 rows Hwf0 k) as (st & Hrun & Hinv); [lia|].
  exists st. split; [done|].
  pose proof (inv_wf _ _ _ _ Hinv) as Hwf.
  split.
  { rewrite !get_velocities_wf by done. apply Hinv. }
  split.
  { apply ke_preserved; apply Hinv. }
  pose proof (inv_newer_vel _ _ _ _ Hinv) as Hnew.
  pose proof (inv_older_vel _ _ _ _ Hinv) as Hold.
  pose proof (Nat.div_mod_eq k 2) as Hdiv.
  destruct (mod2_cases k) as [[E0 E1]|[E0 E1]]; rewrite E0 in Hold; rewrite E1 in Hnew.
  - split; intros Hk1; [apply Hold|apply Hnew]; lia.
  - split; intros Hk1; [apply Hnew|apply Hold]; lia.
Qed.

(** C7, witness: one body with velocity (4, 5, 6), three iterations. *)
Lemma velocity_never_updated_witness :
  ∃ st, run_steps 3 3 lone_v = Done st ∧
        System.get_velocities (sol st) = [Vec3 4 5 6]%float ∧
        history_velocities 0 (sol st) = [Vec3 4 5 6]%float ∧
        history_velocities 1 (sol st) = [Vec3 4 5 6]%float.
Proof.
  destruct (velocity_never_updated lone_v 3 3) as (st & Hrun & Hv & _ & H0 & H1).
  - reflexivity.
  - lia.
  - exists st. split; [exact Hrun|]. split; [exact Hv|].
    split; [apply H0; lia|apply H1; lia].
Defined.

(** ** A System of one body *)

Section OneBody.
Context {R : Type} `{Scalar R}.

Lemma one_body_shape (s : System.t R) :
  system_wf s → System.n s = 1 →
  ∃ b, s = {| System.n := 1; System.bodies := [b] |}.
Proof.
  intros Hwf Hn. destruct s as [n bs]. unfold system_wf in Hwf. simpl in *. subst n.
  destruct bs as [|b [|b' bs]]; try discriminate. by exists b.
Qed.

Lemma one_body_force_matrix (b : Body.t R) :
  System.force_matrix {| System.n := 1; System.bodies := [b] |} = [[System.force b b]].
Proof. reflexivity. Qed.

Lemma force_same_position (b1 b2 : Body.t R) :
  array_equal (Body.get_position b2) (Body.get_position b1) = true →
  System.force b1 b2 = zeros3.
Proof. intros E. unfold System.force. cbv zeta. by rewrite E. Qed.

Lemma one_body_resultant (b : Body.t R) :
  array_equal (Body.get_position b) (Body.get_position b) = true →
  System.resultant_forces {| System.n := 1; System.bodies := [b] |}
  = [vzip add zeros3 zeros3].
Proof.
  intros E. unfold System.resultant_forces. rewrite one_body_force_matrix.
  rewrite (force_same_position b b E). reflexivity.
Qed.

Lemma one_body_accelerations (b : Body.t R) :
  System.get_accelerations {| System.n := 1; System.bodies := [b] |}
  = [Body.compute_acceleration b
       (default zeros3
          (System.resultant_forces {| System.n := 1; System.bodies := [b] |} !! 0))].
Proof. reflexivity. Qed.

Lemma bootstrap_one (q p a : vec3 R) :
  bootstrap [q] [p] [a]
  = [vzip add (vzip add q (vmap (λ c, mul c (of_int dt)) p))
              (vmap (λ c, mul (mul lit_half c) (of_int dt2)) a)].
Proof. reflexivity. Qed.

Lemma stormer_one (qn qn1 a : vec3 R) :
  stormer [qn] [qn1] [a]
  = [vzip add (vzip sub (vmap (mul (of_int 2)) qn) qn1)
              (vmap (λ c, mul c (of_int dt2)) a)].
Proof. reflexivity. Qed.
End OneBody.

(** ** binary64: doubling a float64 and taking it off again *)

Section SpecFloatLemmas.
Local Open Scope Z_scope.

(** A valid finite float64 has its exponent at the place its mantissa
    asks for, and at most 971. *)
Lemma bounded_inv (m : positive) (e : Z) :
  bounded prec emax m e = true →
  fexp prec emax (Z.pos (digits2_pos m) + e) = e ∧ e ≤ 971.
Proof.
  unfold bounded, canonical_mantissa. intros Hb.
  apply andb_prop in Hb as [Hc He].
  apply Z.eqb_eq in Hc. apply Z.leb_le in He. split; [done|]. exact He.
Qed.

(** Rounding leaves a valid float64 as it is. *)
Lemma round_canonical (s : bool) (m : positive) (e : Z) :
  bounded prec emax m e = true →
  binary_round_aux prec emax s (Z.pos m) e loc_Exact = S754_finite s m e.
Proof.
  intros Hb. destruct (bounded_inv m e Hb) as [Hc He].
  unfold binary_round_aux, shr_fexp. cbn [Zdigits2 shr_record_of_loc].
  rewrite Hc, Z.sub_diag. cbn [shr shr_m loc_of_shr_record round_nearest_even Zdigits2].
  rewrite Hc, Z.sub_diag. cbn [shr shr_m].
  apply Z.leb_le in He. change (emax - prec) with 971. by rewrite He.
Qed.

Lemma shl_align_same (m : positive) (e : Z) : shl_align m e e = (m, e).
Proof. unfold shl_align. by rewrite Z.sub_diag. Qed.

Lemma shl_align_one (m : positive) (e : Z) : shl_align m (e + 1) e = (m~0, e)%positive.
Proof. unfold shl_align. by replace (e - (e + 1)) with (-1) by lia. Qed.

Lemma normalize_canonical (s : bool) (m : positive) (e : Z) :
  bounded prec emax m e = true →
  binary_normalize prec emax (cond_Zopp s (Z.pos m)) e false = S754_finite s m e.
Proof.
  intros Hb. destruct (bounded_inv m e Hb) as [Hc _].
  assert (binary_round prec emax s m e = S754_finite s m e) as Hr.
  { unfold binary_round. rewrite Hc, shl_align_same. by apply round_canonical. }
  by destruct s.
Qed.

(** 2 * x for a float64 x = (s, m, e) with e ≤ 970: the exponent goes up
    by one when x is normal (53 digits), the mantissa is doubled when x is
    subnormal.  The float64 2 is (+, 2^52, -51). *)
Lemma double_finite (s : bool) (m : positive) (e : Z) :
  bounded prec emax m e = true → e ≤ 970 →
  SFmul prec emax (S754_finite false 4503599627370496 (-51)) (S754_finite s m e)
  = (if (Z.pos (digits2_pos m) =? 53) then S754_finite s m (e + 1)
     else S754_finite s m~0 e).
Proof.
  intros Hb He. destruct (bounded_inv m e Hb) as [Hc _].
  unfold fexp, SpecFloat.emin in Hc. change prec with 53 in Hc. change emax with 1024 in Hc.
  unfold SFmul. cbn [xorb]. cbv [PosDef.Pos.mul].
  unfold binary_round_aux, shr_fexp. cbn [Zdigits2 shr_record_of_loc digits2_pos].
  rewrite !Pos2Z.inj_succ.
  remember (Z.pos (digits2_pos m)) as d eqn:Ed.
  unfold fexp, SpecFloat.emin. change prec with 53. change emax with 1024.
  destruct (Z.eqb_spec d 53) as [Hd|Hd].
  - replace (Z.max _ _ - (-51 + e)) with 52 by lia.
    cbn [shr SpecFloat.iter_pos shr_1 orb shr_m loc_of_shr_record round_nearest_even Zdigits2].
    rewrite <- Ed.
    replace (Z.max _ _ - (-51 + e + 52)) with 0 by lia.
    cbn [shr shr_m].
    replace (-51 + e + 52) with (e + 1) by lia.
    assert ((e + 1 <=? 1024 - 53) = true) as -> by (apply Z.leb_le; lia). done.
  - replace (Z.max _ _ - (-51 + e)) with 51 by lia.
    cbn [shr SpecFloat.iter_pos shr_1 orb shr_m loc_of_shr_record round_nearest_even
         Zdigits2 digits2_pos].
    rewrite Pos2Z.inj_succ, <- Ed.
    replace (Z.max _ _ - (-51 + e + 51)) with 0 by lia.
    cbn [shr shr_m].
    replace (-51 + e + 51) with e by lia.
    assert ((e <=? 1024 - 53) = true) as -> by (apply Z.leb_le; lia). done.
Qed.

(** 2 * x - x = x, with no rounding, as long as 2 * x does not overflow. *)
Lemma double_minus (s : bool) (m : positive) (e : Z) :
  bounded prec emax m e = true → e ≤ 970 →
  SFsub prec emax
    (SFmul prec emax (S754_finite false 4503599627370496 (-51)) (S754_finite s m e))
    (S754_finite s m e)
  = S754_finite s m e.
Proof.
  intros Hb He. rewrite double_finite by done.
  destruct (Z.pos (digits2_pos m) =? 53); unfold SFsub.
  - replace (Z.min (e + 1) e) with e by lia.
    rewrite shl_align_one, shl_align_same. cbn [fst].
    replace (cond_Zopp s (Z.pos m~0) - cond_Zopp s (Z.pos m))
      with (cond_Zopp s (Z.pos m)) by (destruct s; simpl; lia).
    by apply normalize_canonical.
  - rewrite Z.min_id, !shl_align_same. cbn [fst].
    replace (cond_Zopp s (Z.pos m~0) - cond_Zopp s (Z.pos m))
      with (cond_Zopp s (Z.pos m)) by (destruct s; simpl; lia).
    by apply normalize_canonical.
Qed.

(** x == x for a float64 that is not nan. *)
Lemma SFeqb_refl (x : spec_float) : x ≠ S754_nan → SFeqb x x = true.
Proof.
  unfold SFeqb, SFcompare. destruct x as [s|s| |s m e]; try done.
  - by destruct s.
  - intros _. destruct s; rewrite Z.compare_refl, Pos.compare_cont_refl; done.
Qed.
End SpecFloatLemmas.

(** ** binary64: the arithmetic of a body at rest *)

Section Binary64Lemmas.
Local Open Scope float_scope.

Lemma float_zero_cases (a : float) : is_zero a = true → a = 0 ∨ a = neg_zero.
Proof.
  unfold is_zero. rewrite FloatAxioms.eqb_spec. change (Prim2SF PrimFloat.zero) with (S754_zero false).
  intros Ha. rewrite <- (SF2Prim_Prim2SF a).
  destruct (Prim2SF a) as [s|s| |s m e].
  - destruct s; [by right|by left].
  - by destruct s.
  - done.
  - by destruct s.
Qed.

Lemma finite_not_zero (a : float) (s : bool) (m : positive) (e : Z) :
  Prim2SF a = S754_finite s m e → is_zero a = false.
Proof.
  intros E. unfold is_zero. rewrite FloatAxioms.eqb_spec, E. by destruct s.
Qed.

(** What [in_range] says of a float64: it is a zero, or a finite number
    whose exponent is at most 970. *)
Lemma in_range_cases (a : float) :
  in_range a = true →
  is_zero a = true ∨
  ∃ s m e, Prim2SF a = S754_finite s m e ∧
           bounded prec emax m e = true ∧ (e ≤ 970)%Z.
Proof.
  unfold in_range. rewrite FloatAxioms.leb_spec, FloatAxioms.abs_spec.
  change (Prim2SF half_max) with (S754_finite false 9007199254740991 970).
  pose proof (Prim2SF_valid a) as Hv. unfold is_zero. rewrite FloatAxioms.eqb_spec.
  destruct (Prim2SF a) as [s|s| |s m e]; try discriminate.
  - intros _. left. reflexivity.
  - intros Hle. right. exists s, m, e. split; [done|]. split; [exact Hv|].
    unfold SFleb, SFabs, SFcompare in Hle.
    destruct (Z.compare_spec e 970) as [->|Hlt|Hgt]; [lia|lia|discriminate].
Qed.

Lemma in_range_eqb_refl (a : float) : in_range a = true → (a =? a) = true.
Proof.
  intros Ha. rewrite FloatAxioms.eqb_spec. apply SFeqb_refl.
  destruct (in_range_cases a Ha) as [Hz|(s & m & e & E & _)].
  - unfold is_zero in Hz. rewrite FloatAxioms.eqb_spec in Hz. intros E. by rewrite E in Hz.
  - by rewrite E.
Qed.

(** x + 0.0 = x and x + -0.0 = x for a float64 other than zero. *)
Lemma add_zero_r (a z : float) (s : bool) (m : positive) (e : Z) :
  Prim2SF a = S754_finite s m e → is_zero z = true → a + z = a.
Proof.
  intros E Hz. apply Prim2SF_inj. rewrite FloatAxioms.add_spec, E.
  destruct (float_zero_cases z Hz) as [-> | ->]; reflexivity.
Qed.

(** 2 * x - x = x for a float64 in range other than zero. *)
Lemma double_minus_self (a : float) (s : bool) (m : positive) (e : Z) :
  Prim2SF a = S754_finite s m e → bounded prec emax m e = true → (e ≤ 970)%Z →
  2 * a - a = a.
Proof.
  intros E Hb He. apply Prim2SF_inj. rewrite FloatAxioms.sub_spec, FloatAxioms.mul_spec, E.
  change (Prim2SF 2) with (S754_finite false 4503599627370496 (-51)).
  by apply double_minus.
Qed.

(** 0.0 / m is a zero for every mass other than nan and zero; its sign
    is the sign of m. *)
Lemma zero_div (m : float) : nonzero_number m = true → is_zero (0 / m) = true.
Proof.
  unfold nonzero_number, is_nan, is_zero. rewrite !FloatAxioms.eqb_spec, FloatAxioms.div_spec.
  change (Prim2SF 0) with (S754_zero false).
  change (Prim2SF PrimFloat.zero) with (S754_zero false).
  destruct (Prim2SF m) as [s|s| |s k e]; try done; by destruct s.
Qed.

Lemma stays_refl (a : float) : stays a a.
Proof. by left. Qed.

Lemma stays_zero (a0 a : float) : is_zero a0 = true → stays a0 a → is_zero a = true.
Proof. intros Hz [-> |[_ Ha]]; done. Qed.

Lemma stays_finite (a0 a : float) (s : bool) (m : positive) (e : Z) :
  Prim2SF a0 = S754_finite s m e → stays a0 a → a = a0.
Proof.
  intros E [-> |[Hz _]]; [done|]. by rewrite (finite_not_zero a0 s m e E) in Hz.
Qed.

(** A coordinate that stayed compares equal to the first one, and is no
    nan. *)
Lemma stays_eqb (a0 a : float) :
  in_range a0 = true → stays a0 a → (a =? a0) = true ∧ (a =? a) = true.
Proof.
  intros Hr [-> |[Hz0 Hz]].
  - split; by apply in_range_eqb_refl.
  - destruct (float_zero_cases a0 Hz0) as [-> | ->],
             (float_zero_cases a Hz) as [-> | ->]; by split.
Qed.

(** q + p0*dt + 0.5*A*dt2 with p0 and A zero. *)
Lemma stays_bootstrap (a0 a v z : float) :
  in_range a0 = true → stays a0 a → is_zero v = true → is_zero z = true →
  stays a0 (add (add a (mul v (of_int dt))) (mul (mul lit_half z) (of_int dt2))).
Proof.
  intros Hr Ha Hv Hz. cbn [add mul of_int lit_half binary64].
  assert (is_zero (v * of_int64 dt) = true) as Hvd
    by (destruct (float_zero_cases v Hv) as [-> | ->]; reflexivity).
  assert (is_zero (0.5 * z * of_int64 dt2) = true) as Hzd
    by (destruct (float_zero_cases z Hz) as [-> | ->]; reflexivity).
  destruct (in_range_cases a0 Hr) as [Hz0|(s & m & e & E & Hb & He)].
  - right. split; [done|].
    pose proof (stays_zero a0 a Hz0 Ha) as Hza.
    destruct (float_zero_cases a Hza) as [-> | ->],
             (float_zero_cases _ Hvd) as [-> | ->],
             (float_zero_cases _ Hzd) as [-> | ->]; reflexivity.
  - left. rewrite (stays_finite a0 a s m e E Ha).
    rewrite (add_zero_r a0 _ s m e E Hvd). by rewrite (add_zero_r a0 _ s m e E Hzd).
Qed.

(** 2*qn - qn1 + A*dt2 with qn and qn1 where the body started and A zero. *)
Lemma stays_stormer (a0 a a' z : float) :
  in_range a0 = true → stays a0 a → stays a0 a' → is_zero z = true →
  stays a0 (add (sub (mul (of_int 2) a) a') (mul z (of_int dt2))).
Proof.
  intros Hr Ha Ha' Hz. cbn [add sub mul of_int binary64].
  change (of_int64 2) with 2.
  assert (is_zero (z * of_int64 dt2) = true) as Hzd
    by (destruct (float_zero_cases z Hz) as [-> | ->]; reflexivity).
  destruct (in_range_cases a0 Hr) as [Hz0|(s & m & e & E & Hb & He)].
  - right. split; [done|].
    pose proof (stays_zero a0 a Hz0 Ha) as Hza.
    pose proof (stays_zero a0 a' Hz0 Ha') as Hza'.
    destruct (float_zero_cases a Hza) as [-> | ->],
             (float_zero_cases a' Hza') as [-> | ->],
             (float_zero_cases _ Hzd) as [-> | ->]; reflexivity.
  - left. rewrite (stays_finite a0 a s m e E Ha), (stays_finite a0 a' s m e E Ha').
    rewrite (double_minus_self a0 s m e E Hb He).
    by rewrite (add_zero_r a0 _ s m e E Hzd).
Qed.

Lemma in_range3_components (v : vec3 float) :
  in_range3 v = true →
  in_range (c0 v) = true ∧ in_range (c1 v) = true ∧ in_range (c2 v) = true.
Proof.
  unfold in_range3. intros Hv.
  apply andb_prop in Hv as [Hv H2]. apply andb_prop in Hv as [H0 H1]. done.
Qed.

Lemma stays3_equal (q0 q : vec3 float) :
  in_range3 q0 = true → stays3 q0 q →
  array_equal q q0 = true ∧ array_equal q q = true.
Proof.
  intros Hr (S0 & S1 & S2). apply in_range3_components in Hr as (R0 & R1 & R2).
  destruct (stays_eqb _ _ R0 S0) as [E0 N0], (stays_eqb _ _ R1 S1) as [E1 N1],
           (stays_eqb _ _ R2 S2) as [E2 N2].
  unfold array_equal. cbn [eqb binary64]. by rewrite E0, E1, E2, N0, N1, N2.
Qed.

(** The force on a body that is alone: its position compares equal to
    itself unless a coordinate is nan, so force() takes its first branch;
    the resultant is 0.0 + 0.0 and the acceleration 0.0 / mass. *)
Lemma lone_body_forces (s : System.t float) (q : vec3 float) (m : float) :
  system_wf s → System.n s = 1%nat →
  System.get_positions s = [q] → array_equal q q = true →
  Body.mass <$> System.bodies s = [m] →
  System.resultant_forces s = [zeros3] ∧
  System.get_accelerations s = [Vec3 (0 / m) (0 / m) (0 / m)].
Proof.
  intros Hwf Hn Hpos Hq Hm.
  destruct (one_body_shape s Hwf Hn) as [b ->].
  assert (Body.get_position b = q) as Hqb by (by injection Hpos).
  assert (Body.mass b = m) as Hmb by (by injection Hm).
  assert (System.resultant_forces {| System.n := 1%nat; System.bodies := [b] |} = [zeros3]) as Hres.
  { rewrite one_body_resultant by (by rewrite Hqb). reflexivity. }
  split; [done|].
  rewrite one_body_accelerations, Hres. cbn [lookup list_lookup default].
  unfold Body.compute_acceleration. by rewrite Hmb.
Qed.
End Binary64Lemmas.

(** A run of one body whose positions stay within a set [P] of positions
    at which the acceleration is [acc], and that the two update formulas,
    taken with that acceleration, do not leave. *)
Section OneBodyRun.
Context {R : Type} `{Scalar R}.
Variable b : Body.t R.
Variable rows : nat.
Variable P : vec3 R → Prop.
Variable acc : vec3 R.

Hypothesis HPacc : ∀ s q,
  system_wf s → System.n s = 1 → System.get_positions s = [q] → P q →
  Body.mass <$> System.bodies s = [Body.mass b] →
  System.get_accelerations s = [acc].
Hypothesis HP0 : P (Body.get_position b).
Hypothesis HPboot : ∀ q, P q →
  P (vzip add (vzip add q (vmap (λ c, mul c (of_int dt)) (Body.get_velocity b)))
              (vmap (λ c, mul (mul lit_half c) (of_int dt2)) acc)).
Hypothesis HPstorm : ∀ q q', P q → P q' →
  P (vzip add (vzip sub (vmap (mul (of_int 2)) q) q')
              (vmap (λ c, mul c (of_int dt2)) acc)).

Lemma one_body_run (k : nat) :
  k ≤ rows →
  ∃ st q, run_steps rows k (system_of [b]) = Done st ∧
          run_inv (system_of [b]) rows k st ∧
          System.get_positions (sol st) = [q] ∧ P q ∧
          (1 < k → ∃ q', slot_positions (k `mod` 2) (sol st) = [q'] ∧ P q').
Proof using HPacc HP0 HPboot HPstorm.
  assert (system_wf (system_of [b])) as Hwf0 by reflexivity.
  induction k as [|k IH]; intros Hk.
  - exists (start rows (system_of [b])), (Body.get_position b).
    split; [done|]. split; [by apply run_inv_start|].
    split; [done|]. split; [done|]. intros; lia.
  - destruct IH as (st & q & Hrun & Hinv & Hpos & HPq & Hold); [lia|].
    destruct (run_steps_next _ rows k st Hwf0 ltac:(lia) Hrun) as [_ Hnext].
    pose proof (run_inv_step _ rows k st Hwf0 Hinv ltac:(lia)) as Hinv'.
    pose proof (inv_wf _ _ _ _ Hinv) as Hwf. pose proof (inv_n _ _ _ _ Hinv) as Hn.
    change (System.n (system_of [b])) with 1 in Hn.
    change (System.get_velocities (system_of [b])) with [Body.get_velocity b] in *.
    set (p0 := [Body.get_velocity b]) in *.
    pose proof (HPacc (sol st) q Hwf Hn Hpos HPq (inv_mass _ _ _ _ Hinv)) as HA.
    assert (∃ q1, new_positions p0 k (sol st) = [q1] ∧ P q1) as (q1 & Hq1 & HP1).
    { destruct k as [|[|k]].
      - exists q. by split.
      - eexists. cbn [new_positions]. rewrite HA.
        pose proof (inv_newer _ _ _ _ Hinv ltac:(lia)) as Hnew.
        change ((1 + 1) `mod` 2) with 0 in Hnew. rewrite Hnew, Hpos.
        unfold p0. rewrite bootstrap_one. split; [reflexivity|by apply HPboot].
      - destruct Hold as (q' & Hq' & HPq'); [lia|].
        eexists.
        change (new_positions p0 (S (S k)) (sol st))
          with (stormer (slot_positions ((S (S k) + 1) `mod` 2) (sol st))
                        (slot_positions (S (S k) `mod` 2) (sol st))
                        (System.get_accelerations (sol st))).
        rewrite HA, Hq', (inv_newer _ _ _ _ Hinv) by lia. rewrite Hpos.
        rewrite stormer_one. split; [reflexivity|by apply HPstorm]. }
    assert (length (new_positions p0 k (sol st)) = System.n (sol st)) as Hlen
      by (rewrite Hq1, Hn; reflexivity).
    assert (length p0 = System.n (sol st)) as Hp by (rewrite Hn; reflexivity).
    eexists _, q1. split; [exact Hnext|]. split; [exact Hinv'|].
    split; [rewrite after_step_positions by done; exact Hq1|].
    split; [done|]. intros Hk1.
    exists q. split; [|done].
    destruct (mod2_succ k) as [-> _].
    rewrite after_step_slot_positions by (done || apply mod2_lt).
    rewrite decide_False by (pose proof (mod2_other k); congruence).
    rewrite (inv_newer _ _ _ _ Hinv) by lia. done.
Qed.
End OneBodyRun.

(** A body at rest, in range, with a mass other than nan and zero: after
    any number of iterations every coordinate is where it was. *)
Lemma body_at_rest_stays (b : Body.t float) (rows k : nat) :
  nonzero_number (Body.mass b) = true →
  in_range3 (Body.get_position b) = true →
  array_equal (Body.get_velocity b) zeros3 = true →
  k ≤ rows →
  ∃ st q, run_steps rows k (system_of [b]) = Done st ∧
          System.get_positions (sol st) = [q] ∧
          stays3 (Body.get_position b) q.
Proof.
  intros Hm Hr Hv Hk.
  pose proof (in_range3_components _ Hr) as (R0 & R1 & R2).
  pose proof (zero_div _ Hm) as Hz.
  assert (PrimFloat.is_zero (c0 (Body.get_velocity b)) = true ∧
          PrimFloat.is_zero (c1 (Body.get_velocity b)) = true ∧
          PrimFloat.is_zero (c2 (Body.get_velocity b)) = true) as (V0 & V1 & V2).
  { unfold array_equal in Hv. cbn [eqb binary64 zeros3 c0 c1 c2 zero] in Hv.
    apply andb_prop in Hv as [Hv H2]. apply andb_prop in Hv as [H0 H1]. done. }
  destruct (one_body_run b rows (stays3 (Body.get_position b))
              (Vec3 (0 / Body.mass b) (0 / Body.mass b) (0 / Body.mass b))%float)
    with (k := k) as (st & q & Hrun & _ & Hq & HP & _); try done.
  - intros s q Hwf Hn Hpos HP Hmass.
    destruct (stays3_equal _ q Hr HP) as [_ Hqq].
    by destruct (lone_body_forces s q (Body.mass b) Hwf Hn Hpos Hqq Hmass).
  - repeat split; apply stays_refl.
  - intros q (S0 & S1 & S2). unfold stays3, vzip, vmap. cbn [c0 c1 c2].
    repeat split; by apply stays_bootstrap.
  - intros q q' (S0 & S1 & S2) (S0' & S1' & S2'). unfold stays3, vzip, vmap. cbn [c0 c1 c2].
    repeat split; by apply stays_stormer.
  - by exists st, q.
Qed.

(** ** C10: a System of one body *)




(** The bound on the coordinates is needed.  A body at rest at x = 1e308:
    at iteration 3 (k = 2), 2*qn overflows and the body is put at
    infinity; at iteration 5, 2*inf - inf is nan, and from then on the
    force and the acceleration are nan as well. *)
Lemma lone_body_out_of_range :
  in_range3 (Body.get_position body_far) = false ∧
  (∃ st, run_steps 5 3 lone_far = Done st ∧
         System.get_positions (sol st) = [Vec3 infinity 0 0]%float) ∧
  (∃ st, run_steps 5 5 lone_far = Done st ∧
         (λ q, array_equal q q) <$> System.get_positions (sol st) = [false] ∧
         (λ f, array_equal f f) <$> System.resultant_forces (sol st) = [false] ∧
         (λ a, array_equal a a) <$> System.get_accelerations (sol st) = [false]).
Proof.
  split; [reflexivity|]. split.
  - eexists. split; [vm_compute; reflexivity|]. vm_compute. reflexivity.
  - eexists. split; [vm_compute; reflexivity|].
    split; [|split]; vm_compute; reflexivity.
Qed.

(** ** What the force matrix and the accelerations are in general *)

Section ForceMatrix.
Context {R : Type} `{Scalar R}.

Lemma foldl_alter_same {A B : Type} (g : B → A → A) (i : nat) (xs : list B) :
  ∀ arr : list A,
    foldl (λ arr x, alter (g x) i arr) arr xs
    = alter (λ row, foldl (λ row x, g x row) row xs) i arr.
Proof.
  induction xs as [|x xs IH]; intros arr; simpl.
  - symmetry. by apply list_alter_id.
  - rewrite IH. apply list_alter_alter_eq.
Qed.

Lemma alter_rows {A : Type} (g : Body.t R → A → A) (bs : list (Body.t R)) :
  ∀ pre rows : list A,
    length rows = length bs →
    foldl (λ arr bi, alter (g bi.1) bi.2 arr) (pre ++ rows)
          (zip bs (seq (length pre) (length bs)))
    = pre ++ zip_with g bs rows.
Proof.
  induction bs as [|b bs IH]; intros pre rows Hlen.
  - destruct rows; [done|discriminate].
  - destruct rows as [|r rows]; [discriminate|]. simpl in Hlen. simpl.
    rewrite alter_app_r_alt by lia. rewrite Nat.sub_diag. simpl.
    specialize (IH (pre ++ [g b r]) rows).
    rewrite <- !app_assoc, length_app in IH. simpl in IH.
    rewrite Nat.add_1_r in IH. apply IH. lia.
Qed.

Lemma foldl_ext_pointwise {A B : Type} (f g : A → B → A) (l : list B) :
  (∀ a b, f a b = g a b) → ∀ a, foldl f a l = foldl g a l.
Proof.
  intros Hfg. induction l as [|b l IH]; intros a; simpl; [done|].
  by rewrite Hfg, IH.
Qed.

(** On a well-formed System the double loop leaves
    forces[i][j] = force(bodies[i], bodies[j]). *)
Lemma force_matrix_wf (s : System.t R) :
  system_wf s →
  System.force_matrix s
  = (λ one, System.force one <$> System.bodies s) <$> System.bodies s.
Proof.
  intros Hwf. unfold System.force_matrix.
  rewrite (foldl_ext_pointwise _
             (λ forces one_i,
                alter (System.fill (System.force one_i.1) s) one_i.2 forces)).
  2: { intros forces one_i.
       apply (foldl_alter_same
                (λ two_j row, <[two_j.2 := System.force one_i.1 two_j.1]> row)). }
  unfold system_wf in Hwf. unfold System.enum at 1. rewrite Hwf.
  pose proof (alter_rows (λ one row, System.fill (System.force one) s row)
                (System.bodies s) [] (replicate (length (System.bodies s))
                                                (zeros_n3 (length (System.bodies s))))) as E.
  etrans; [apply E; by rewrite length_replicate|]. simpl.
  rewrite zip_with_replicate_r by done.
  apply list_fmap_ext. intros i one _. unfold flip.
  apply fill_wf; [done|]. unfold zeros_n3. by rewrite length_replicate.
Qed.

(** resforce[k] = Σ_j force(bodies[k], bodies[j]): the forces body k
    exerts, added up. *)
Lemma resultant_forces_wf (s : System.t R) :
  system_wf s →
  System.resultant_forces s
  = (λ one, sum_rows (System.force one <$> System.bodies s)) <$> System.bodies s.
Proof.
  intros Hwf. unfold System.resultant_forces, sum_axis1.
  rewrite force_matrix_wf by done. by rewrite <- list_fmap_compose.
Qed.

Lemma fill_indexed {A D : Type} (h : Body.t R → D → A) (d0 : D) (bs : list (Body.t R)) :
  ∀ (pre rest : list A) (dpre drest : list D),
    length dpre = length pre → length rest = length bs → length drest = length bs →
    foldl (λ acc ai, <[ai.2 := h ai.1 (default d0 ((dpre ++ drest) !! ai.2))]> acc)
          (pre ++ rest) (zip bs (seq (length pre) (length bs)))
    = pre ++ zip_with h bs drest.
Proof.
  induction bs as [|b bs IH]; intros pre rest dpre drest Hd Hr Hdr.
  - destruct rest; [|discriminate]. destruct drest; [done|discriminate].
  - destruct rest as [|r rest]; [discriminate|].
    destruct drest as [|d drest]; [discriminate|]. simpl in Hr, Hdr. simpl.
    rewrite list_lookup_middle by done. simpl.
    rewrite insert_app_r_alt by lia. rewrite Nat.sub_diag. simpl.
    specialize (IH (pre ++ [h b d]) rest (dpre ++ [d]) drest).
    rewrite <- !app_assoc, !length_app in IH. simpl in IH.
    rewrite !Nat.add_1_r in IH. apply IH; lia.
Qed.

(** acc[k] = resforce[k] / mass_k. *)
Lemma get_accelerations_wf (s : System.t R) :
  system_wf s →
  System.get_accelerations s
  = zip_with Body.compute_acceleration (System.bodies s) (System.resultant_forces s).
Proof.
  intros Hwf. unfold System.get_accelerations. cbv zeta.
  assert (length (System.resultant_forces s) = length (System.bodies s)) as Hlen.
  { rewrite resultant_forces_wf by done. by rewrite length_fmap. }
  unfold system_wf in Hwf. unfold System.enum. rewrite Hwf.
  pose proof (fill_indexed Body.compute_acceleration zeros3 (System.bodies s)
                [] (zeros_n3 (length (System.bodies s))) [] (System.resultant_forces s)) as E.
  simpl in E. apply E; [done| |done].
  unfold zeros_n3. by rewrite length_replicate.
Qed.
End ForceMatrix.

(** ** C1, C2, C8: the force matrix on concrete systems *)

(** The concrete systems are what System.__init__ builds from their tables. *)
Lemma pair_apart_constructed :
  System.init ["o"; "d"]%string
              [[0; 0; 0; 0; 0; 0]; [1; 2; 4; 0; 0; 0]]%float
              [1; 1]%float [0; 0]%float [0; 0]%float
  = Ok pair_apart.
Proof. reflexivity. Qed.

Lemma pair_13_constructed :
  System.init ["o"; "e"]%string
              [[0; 0; 0; 0; 0; 0]; [3; 4; 12; 0; 0; 0]]%float
              [1; 1]%float [0; 0]%float [0; 0]%float
  = Ok pair_13.
Proof. reflexivity. Qed.

Lemma pair_on_axis_constructed :
  System.init ["o"; "x"]%string
              [[0; 0; 0; 0; 0; 0]; [1; 0; 0; 0; 0; 0]]%float
              [1; 1]%float [0; 0]%float [0; 0]%float
  = Ok pair_on_axis.
Proof. reflexivity. Qed.

Lemma lone_v_constructed :
  System.init ["v"]%string [[1; 2; 3; 4; 5; 6]]%float [1]%float [0]%float [0]%float
  = Ok lone_v.
Proof. reflexivity. Qed.

(** C1, the code at two unit masses at (0,0,0) and (1,2,4).  The force
    matrix holds F[0][1] = force(o, d), the force on d, which points from
    d back to o, and F[1][0] = force(d, o), its opposite.  The code's
    resultant for body 0 is F[0][0] + F[0][1] = F[0][1], the force body 0
    exerts; the sum over the first index, Σ_i F[i][0], is F[1][0]. *)
Theorem resultant_sums_second_index :
  System.force_matrix pair_apart
  = [[zeros3; System.force body_o body_d]; [System.force body_d body_o; zeros3]] ∧
  System.force body_o body_d
  = Vec3 (neg lit_g) (div (neg lit_g) 4%float) (div (neg lit_g) 16%float) ∧
  System.force body_d body_o
  = Vec3 lit_g (div lit_g 4%float) (div lit_g 16%float) ∧
  System.resultant_forces pair_apart
  = [System.force body_o body_d; System.force body_d body_o] ∧
  System.get_accelerations pair_apart
  = [System.force body_o body_d; System.force body_d body_o] ∧
  spec_resultant_force pair_apart 0 = System.force body_d body_o ∧
  spec_resultant_force pair_apart 1 = System.force body_o body_d ∧
  array_equal (System.force body_o body_d) (System.force body_d body_o) = false.
Proof. repeat split; vm_compute; reflexivity. Qed.

(** C2, the code at two unit masses at (0,0,0) and (3,4,12), whose distance
    is 13.  np.abs is taken component by component, so the code divides
    by 9, 16 and 144 and multiplies by (1, 1, 1); the formula of the
    specification divides by 169 and multiplies by (3/13, 4/13, 12/13). *)
Theorem force_divides_by_components :
  spec_dist (vzip sub (Body.get_position body_e) (Body.get_position body_o)) = 13%float ∧
  System.force body_o body_e
  = Vec3 (div (neg lit_g) 9%float) (div (neg lit_g) 16%float) (div (neg lit_g) 144%float) ∧
  spec_force body_o body_e
  = Vec3 (mul (div (neg lit_g) 169%float) (div 3%float 13%float))
         (mul (div (neg lit_g) 169%float) (div 4%float 13%float))
         (mul (div (neg lit_g) 169%float) (div 12%float 13%float)) ∧
  array_equal (System.force body_o body_e) (spec_force body_o body_e) = false ∧
  PrimFloat.ltb (c0 (System.force body_o body_e)) (c0 (spec_force body_o body_e)) = true.
Proof. repeat split; vm_compute; reflexivity. Qed.

(** C8, the code at two unit masses at (0,0,0) and (1,0,0).  The positions
    differ, so the guard does not apply; the y and z separations are 0, and
    0/0 makes those components of both forces nan.  force(o, x) and
    -force(x, o) then do not compare equal.  The diagonal entries are
    zero. *)
Theorem force_on_axis_is_nan :
  System.force_matrix pair_on_axis
  = [[zeros3; Vec3 (neg lit_g) nan nan]; [Vec3 lit_g nan nan; zeros3]] ∧
  System.force body_o body_x = Vec3 (neg lit_g) nan nan ∧
  vmap neg (System.force body_x body_o) = Vec3 (neg lit_g) nan nan ∧
  array_equal (System.force body_o body_x) (vmap neg (System.force body_x body_o)) = false ∧
  System.force body_o body_o = zeros3 ∧
  System.force body_x body_x = zeros3.
Proof. repeat split; vm_compute; reflexivity. Qed.

(** ** C3: set_velocities *)

Lemma fmap_zip_with_frame {A B C : Type} (g : A → C) (f : A → B → A)
    (l : list A) (k : list B) :
  (∀ a c, g (f a c) = g a) → length l ≤ length k →
  g <$> zip_with f l k = g <$> l.
Proof.
  intros Hg. revert k. induction l as [|a l IH]; intros [|c k] Hlen; simpl in *;
    try done; try (exfalso; lia).
  rewrite Hg. f_equal. apply IH. lia.
Qed.

(** What set_velocities does on any well-formed System: it is
    set_positions. *)
Lemma set_velocities_effect {R : Type} `{Scalar R} (vel : list (vec3 R)) (s : System.t R) :
  system_wf s → length vel = System.n s →
  ∃ s', System.set_velocities vel s = Done s' ∧
        System.set_velocities vel s = System.set_positions vel s ∧
        System.get_velocities s' = System.get_velocities s ∧
        System.get_positions s' = vel.
Proof.
  intros Hwf Hlen. rewrite set_velocities_ok by done.
  eexists. split; [reflexivity|]. split; [by rewrite set_positions_ok|].
  assert (system_wf {| System.n := System.n s;
                       System.bodies := zip_with move (System.bodies s) vel |}) as Hwf'.
  { unfold system_wf in *. simpl. rewrite length_zip_with. lia. }
  rewrite !get_velocities_wf, get_positions_wf by done. simpl. split.
  - apply fmap_zip_with_frame; [done|]. unfold system_wf in Hwf. lia.
  - apply fmap_zip_with_r; [by intros b []|]. unfold system_wf in Hwf. lia.
Qed.

(** C3, the code at one body at (1,2,3) with velocity (4,5,6) and
    v = [(7,8,9)]: afterwards get_velocities still returns (4,5,6), and the
    body has moved to (7,8,9). *)
Theorem set_velocities_moves_the_body :
  ∃ s', System.set_velocities [Vec3 7 8 9]%float lone_v = Done s' ∧
        System.get_velocities lone_v = [Vec3 4 5 6]%float ∧
        System.get_positions lone_v = [Vec3 1 2 3]%float ∧
        System.get_velocities s' = [Vec3 4 5 6]%float ∧
        System.get_positions s' = [Vec3 7 8 9]%float.
Proof. eexists. repeat split; reflexivity. Qed.


(** * Further properties of the code *)

(** ** System.__init__ *)

Section InitProperties.
Context {R : Type} `{Scalar R}.

Lemma collect_inv {A : Type} (f : nat → result A) (idx : list nat) :
  ∀ l, System.collect f idx = Ok l → Forall2 (λ i a, f i = Ok a) idx l.
Proof.
  induction idx as [|i idx IH]; intros l; simpl.
  - intros [= <-]. constructor.
  - destruct (f i) as [a|e] eqn:Ei; [|done].
    destruct (System.collect f idx) as [l'|e]; [|done].
    intros [= <-]. constructor; [done|by apply IH].
Qed.

Lemma collect_error {A : Type} (f : nat → result A) (e : exn) (idx : list nat) :
  (∀ i, i ∈ idx → (∃ a, f i = Ok a) ∨ f i = Err e) →
  (∃ i, i ∈ idx ∧ f i = Err e) →
  System.collect f idx = Err e.
Proof.
  induction idx as [|i idx IH]; intros Hall (j & Hj & Ej).
  - by apply elem_of_nil in Hj.
  - simpl. destruct (Hall i) as [[a Ea]|Ee]; [apply list_elem_of_here| |by rewrite Ee].
    rewrite Ea. apply elem_of_cons in Hj as [->|Hj]; [congruence|].
    rewrite IH; [done| |by exists j].
    intros i' Hi'. apply Hall. by apply list_elem_of_further.
Qed.

Lemma collect_ext {A : Type} (f g : nat → result A) (idx : list nat) :
  (∀ i, i ∈ idx → f i = g i) → System.collect f idx = System.collect g idx.
Proof.
  induction idx as [|i idx IH]; intros Hfg; simpl; [done|].
  rewrite <- (Hfg i) by apply list_elem_of_here.
  rewrite IH; [done|]. intros j Hj. apply Hfg. by apply list_elem_of_further.
Qed.

Lemma make_body_inv (names : list string) (posvel : list (list R))
    (masses gms radii : list R) (i : nat) (b : Body.t R) :
  System.make_body names posvel masses gms radii i = Ok b →
  ∃ nm px py pz pvx pvy pvz m gm rad,
    names !! i = Some nm ∧ posvel !! i = Some [px; py; pz; pvx; pvy; pvz] ∧
    masses !! i = Some m ∧ gms !! i = Some gm ∧ radii !! i = Some rad ∧
    b = Body.init nm px py pz pvx pvy pvz m gm rad.
Proof.
  unfold System.make_body.
  destruct (names !! i) as [nm|]; [|done].
  destruct (posvel !! i) as [pv|]; [|done].
  destruct (masses !! i) as [m|]; [|done].
  destruct (gms !! i) as [gm|]; [|done].
  destruct (radii !! i) as [rad|]; [|done].
  destruct pv as [|a1 [|a2 [|a3 [|a4 [|a5 [|a6 [|a7 pv]]]]]]]; try done.
  intros [= <-]. by eexists _, _, _, _, _, _, _, _, _, _.
Qed.

(** Without a short table, the only error of make_body is the TypeError
    of a row that does not have six entries; with rows of six entries, the
    only error is the IndexError of a short table. *)
Lemma make_body_cases (names : list string) (posvel : list (list R))
    (masses gms radii : list R) (i : nat) :
  i < length names →
  (∃ b, System.make_body names posvel masses gms radii i = Ok b) ∨
  (System.make_body names posvel masses gms radii i = Err IndexError ∧
   (length posvel ≤ i ∨ length masses ≤ i ∨ length gms ≤ i ∨ length radii ≤ i)) ∨
  (System.make_body names posvel masses gms radii i = Err TypeError ∧
   ∃ row, posvel !! i = Some row ∧ length row ≠ 6).
Proof.
  intros Hi. unfold System.make_body.
  destruct (lookup_lt_is_Some_2 names i Hi) as [nm ->].
  destruct (posvel !! i) as [pv|] eqn:Epv;
    [|right; left; split; [done|]; apply lookup_ge_None in Epv; lia].
  destruct (masses !! i) as [m|] eqn:Em;
    [|right; left; split; [done|]; apply lookup_ge_None in Em; lia].
  destruct (gms !! i) as [gm|] eqn:Eg;
    [|right; left; split; [done|]; apply lookup_ge_None in Eg; lia].
  destruct (radii !! i) as [rad|] eqn:Er;
    [|right; left; split; [done|]; apply lookup_ge_None in Er; lia].
  destruct pv as [|a1 [|a2 [|a3 [|a4 [|a5 [|a6 [|a7 pv]]]]]]];
    try (right; right; split; [done|]; eexists; split; [done|]; simpl; lia).
  left. by eexists.
Qed.
End InitProperties.

(** X1: when System.__init__ returns a System, its n is len(names), it has
    one body per name, and body i is Body(names[i], *posvel[i], masses[i],
    gms[i], radii[i]) with a six-entry row posvel[i]. *)
Theorem system_init_bodies {R : Type} `{Scalar R}
    (names : list string) (posvel : list (list R)) (masses gms radii : list R)
    (s : System.t R) :
  System.init names posvel masses gms radii = Ok s →
  System.n s = length names ∧
  length (System.bodies s) = length names ∧
  ∀ i, i < length names →
    ∃ nm px py pz pvx pvy pvz m gm rad,
      names !! i = Some nm ∧ posvel !! i = Some [px; py; pz; pvx; pvy; pvz] ∧
      masses !! i = Some m ∧ gms !! i = Some gm ∧ radii !! i = Some rad ∧
      System.bodies s !! i = Some (Body.init nm px py pz pvx pvy pvz m gm rad).
Proof.
  unfold System.init.
  destruct (System.collect _ _) as [bs|e] eqn:E; [|done].
  intros [= <-]. simpl. apply collect_inv in E.
  pose proof (Forall2_length _ _ _ E) as Hlen. rewrite length_seq in Hlen.
  split; [done|]. split; [done|]. intros i Hi.
  destruct (lookup_lt_is_Some_2 bs i) as [b Hb]; [lia|].
  assert (seq 0 (length names) !! i = Some i) as Hseq by (by apply lookup_seq).
  pose proof (Forall2_lookup_lr _ _ _ _ _ _ E Hseq Hb) as Hmk.
  apply make_body_inv in Hmk
    as (nm & px & py & pz & pvx & pvy & pvz & m & gm & rad & ? & ? & ? & ? & ? & ->).
  by eexists _, _, _, _, _, _, _, _, _, _.
Qed.

(** X1, witness: the two-body system of C1. *)
Lemma system_init_bodies_witness :
  System.n pair_apart = 2 ∧
  System.bodies pair_apart !! 1 = Some (Body.init "d" 1 2 4 0 0 0 1 0 0)%float.
Proof.
  destruct (system_init_bodies ["o"; "d"]%string
              [[0; 0; 0; 0; 0; 0]; [1; 2; 4; 0; 0; 0]]%float
              [1; 1]%float [0; 0]%float [0; 0]%float pair_apart) as (Hn & _ & _).
  - reflexivity.
  - split; [exact Hn|reflexivity].
Defined.

(** X2: the errors of System.__init__.  With state rows of six entries, a
    table of states, masses, gms or radii shorter than the names raises
    IndexError; with no table shorter than the names, a state row without
    exactly six entries raises TypeError.  No System is built in either
    case. *)
Theorem system_init_errors {R : Type} `{Scalar R}
    (names : list string) (posvel : list (list R)) (masses gms radii : list R) :
  (Forall (λ row, length row = 6) posvel →
   length posvel < length names ∨ length masses < length names ∨
   length gms < length names ∨ length radii < length names →
   System.init names posvel masses gms radii = Err IndexError) ∧
  (length names ≤ length posvel → length names ≤ length masses →
   length names ≤ length gms → length names ≤ length radii →
   (∃ i row, i < length names ∧ posvel !! i = Some row ∧ length row ≠ 6) →
   System.init names posvel masses gms radii = Err TypeError).
Proof.
  split.
  - intros Hrows Hshort. unfold System.init.
    rewrite (collect_error _ IndexError); [done| |].
    + intros i Hi. apply elem_of_seq in Hi.
      destruct (make_body_cases names posvel masses gms radii i) as [?|[[? _]|[_ Hbad]]];
        [lia|by left|by right|].
      destruct Hbad as (row & Hrow & Hlen). rewrite Forall_lookup in Hrows.
      by specialize (Hrows i row Hrow).
    + exists (length names - 1). split; [apply elem_of_seq; lia|].
      destruct (make_body_cases names posvel masses gms radii (length names - 1))
        as [[b Hb]|[[? _]|[_ Hbad]]]; [lia| |done|].
      * apply make_body_inv in Hb
          as (nm & px & py & pz & pvx & pvy & pvz & m & gm & rad & _ & H1 & H2 & H3 & H4 & _).
        apply lookup_lt_Some in H1, H2, H3, H4. lia.
      * destruct Hbad as (row & Hrow & Hlen). rewrite Forall_lookup in Hrows.
        by specialize (Hrows _ row Hrow).
  - intros Hpv Hm Hg Hr (i & row & Hi & Hrow & Hlen). unfold System.init.
    rewrite (collect_error _ TypeError); [done| |].
    + intros j Hj. apply elem_of_seq in Hj.
      destruct (make_body_cases names posvel masses gms radii j) as [?|[[_ ?]|[? _]]];
        [lia|by left|lia|by right].
    + exists i. split; [apply elem_of_seq; lia|].
      destruct (make_body_cases names posvel masses gms radii i) as [[b Hb]|[[_ ?]|[? _]]];
        [lia| |lia|done].
      apply make_body_inv in Hb
        as (nm & px & py & pz & pvx & pvy & pvz & m & gm & rad & _ & H1 & _).
      rewrite Hrow in H1. injection H1 as ->. simpl in Hlen. lia.
Qed.

(** X2, witness: two names with one mass, and one name with a five-entry
    state row. *)
Lemma system_init_errors_witness :
  System.init ["a"; "b"]%string [[0; 0; 0; 0; 0; 0]; [1; 1; 1; 0; 0; 0]]%float
              [1]%float [0; 0]%float [0; 0]%float = Err IndexError ∧
  System.init ["a"]%string [[0; 0; 0; 0; 0]]%float [1]%float [0]%float [0]%float
  = Err TypeError.
Proof.
  split.
  - apply (proj1 (system_init_errors (R := float) _ _ _ _ _)).
    + repeat constructor.
    + right. left. simpl. lia.
  - apply (proj2 (system_init_errors (R := float) _ _ _ _ _)); simpl; try lia.
    exists 0, [0; 0; 0; 0; 0]%float. split; [lia|]. split; [reflexivity|]. simpl. lia.
Defined.

(** X3: System.__init__ reads only the first len(names) entries of the
    other tables: longer tables are accepted, and their extra entries
    change nothing. *)
Theorem system_init_ignores_extra_entries {R : Type} `{Scalar R}
    (names : list string) (posvel : list (list R)) (masses gms radii : list R) :
  System.init names posvel masses gms radii
  = System.init names (take (length names) posvel) (take (length names) masses)
                (take (length names) gms) (take (length names) radii).
Proof.
  unfold System.init.
  rewrite (collect_ext _
             (System.make_body names (take (length names) posvel)
                (take (length names) masses) (take (length names) gms)
                (take (length names) radii))); [done|].
  intros i Hi. apply elem_of_seq in Hi. unfold System.make_body.
  by rewrite !lookup_take_lt by lia.
Qed.

(** ** The batched writes of System *)

Section UpdateProperties.
Context {R : Type} `{Scalar R}.

Lemma for_each_rows_le {D : Type} (h : D → Body.t R → result (Body.t R))
    (g : Body.t R → D → Body.t R) :
  (∀ d b, h d b = Ok (g b d)) →
  ∀ (bs : list (Body.t R)) (pre ds : list D),
    length bs ≤ length ds →
    System.for_each
      (λ b i, match (pre ++ ds) !! i with
              | None => Err IndexError
              | Some d => h d b
              end)
      bs (seq (length pre) (length bs))
    = Done (zip_with g bs ds).
Proof.
  intros Hh. induction bs as [|b bs IH]; intros pre ds Hlen; [done|].
  destruct ds as [|d ds]; [simpl in Hlen; lia|]. simpl in Hlen. simpl.
  rewrite list_lookup_middle by done. rewrite Hh.
  specialize (IH (pre ++ [d]) ds).
  rewrite <- app_assoc, length_app in IH. simpl in IH.
  rewrite Nat.add_1_r in IH. rewrite IH by lia. done.
Qed.

Lemma for_each_rows_short {D : Type} (h : D → Body.t R → result (Body.t R))
    (g : Body.t R → D → Body.t R) :
  (∀ d b, h d b = Ok (g b d)) →
  ∀ (bs : list (Body.t R)) (pre ds : list D),
    length ds < length bs →
    System.for_each
      (λ b i, match (pre ++ ds) !! i with
              | None => Err IndexError
              | Some d => h d b
              end)
      bs (seq (length pre) (length bs))
    = Raised IndexError (zip_with g (take (length ds) bs) ds ++ drop (length ds) bs).
Proof.
  intros Hh. induction bs as [|b bs IH]; intros pre ds Hlen; [simpl in Hlen; lia|].
  destruct ds as [|d ds]; simpl in Hlen; simpl.
  - rewrite app_nil_r, lookup_ge_None_2 by done. done.
  - rewrite list_lookup_middle by done. rewrite Hh.
    specialize (IH (pre ++ [d]) ds).
    rewrite <- app_assoc, length_app in IH. simpl in IH.
    rewrite Nat.add_1_r in IH. rewrite IH by lia. done.
Qed.

Lemma update_rows_le {D : Type} (h : D → Body.t R → result (Body.t R))
    (g : Body.t R → D → Body.t R) (ds : list D) (s : System.t R) :
  (∀ d b, h d b = Ok (g b d)) →
  system_wf s → System.n s ≤ length ds →
  System.update (λ b i, match ds !! i with
                        | None => Err IndexError
                        | Some d => h d b
                        end) s
  = Done {| System.n := System.n s;
            System.bodies := zip_with g (System.bodies s) ds |}.
Proof.
  intros Hh Hwf Hlen. unfold System.update. rewrite Hwf.
  pose proof (for_each_rows_le h g Hh (System.bodies s) [] ds) as E.
  simpl in E. rewrite E by (unfold system_wf in Hwf; lia).
  by rewrite <- Hwf.
Qed.

Lemma update_rows_short {D : Type} (h : D → Body.t R → result (Body.t R))
    (g : Body.t R → D → Body.t R) (ds : list D) (s : System.t R) :
  (∀ d b, h d b = Ok (g b d)) →
  system_wf s → length ds < System.n s →
  System.update (λ b i, match ds !! i with
                        | None => Err IndexError
                        | Some d => h d b
                        end) s
  = Raised IndexError
      {| System.n := System.n s;
         System.bodies := zip_with g (take (length ds) (System.bodies s)) ds
                          ++ drop (length ds) (System.bodies s) |}.
Proof.
  intros Hh Hwf Hlen. unfold System.update. rewrite Hwf.
  pose proof (for_each_rows_short h g Hh (System.bodies s) [] ds) as E.
  simpl in E. rewrite E by (unfold system_wf in Hwf; lia).
  by rewrite <- Hwf.
Qed.

Lemma put_keeps_position (slot : nat) (b : Body.t R) (row : row6 R) :
  Body.get_position (put slot b row) = Body.get_position b.
Proof. by destruct slot. Qed.

Lemma put_keeps_velocity (slot : nat) (b : Body.t R) (row : row6 R) :
  Body.get_velocity (put slot b row) = Body.get_velocity b.
Proof. by destruct slot. Qed.

Lemma slot_of_put (slot : nat) (b : Body.t R) (row : row6 R) :
  slot_of slot (put slot b row) = row.
Proof. by destruct slot. Qed.

Lemma slot_of_put_other (slot slot' : nat) (b : Body.t R) (row : row6 R) :
  slot < 2 → slot' < 2 → slot ≠ slot' →
  slot_of slot' (put slot b row) = slot_of slot' b.
Proof.
  intros Hs Hs' Hne.
  destruct slot as [|[|?]], slot' as [|[|?]]; try lia; reflexivity.
Qed.
End UpdateProperties.

(** X4: set_positions then get_positions.  On a well-formed System of n
    bodies, set_positions with an array of at least n rows succeeds, and
    get_positions then returns its first n rows; the velocities, the masses
    and the integration history of the bodies are untouched. *)
Theorem set_positions_round_trip {R : Type} `{Scalar R}
    (pos : list (vec3 R)) (s : System.t R) :
  system_wf s → System.n s ≤ length pos →
  ∃ s', System.set_positions pos s = Done s' ∧
        system_wf s' ∧ System.n s' = System.n s ∧
        System.get_positions s' = take (System.n s) pos ∧
        System.get_velocities s' = System.get_velocities s ∧
        Body.mass <$> System.bodies s' = Body.mass <$> System.bodies s ∧
        Body.last_values <$> System.bodies s' = Body.last_values <$> System.bodies s.
Proof.
  intros Hwf Hlen.
  exists {| System.n := System.n s;
            System.bodies := zip_with move (System.bodies s) pos |}.
  split.
  { exact (update_rows_le (λ v a, Ok (move a v)) move pos s (λ _ _, eq_refl) Hwf Hlen). }
  unfold system_wf in Hwf.
  assert (system_wf {| System.n := System.n s;
                       System.bodies := zip_with move (System.bodies s) pos |}) as Hwf'.
  { unfold system_wf. simpl. rewrite length_zip_with. lia. }
  split; [done|]. split; [done|].
  rewrite get_positions_wf, !get_velocities_wf by done. simpl.
  split; [|split; [|split]]; try (apply fmap_zip_with_frame; [done|lia]).
  rewrite Hwf. rewrite <- (zip_with_take_r move (System.bodies s) pos).
  apply fmap_zip_with_r; [by intros b []|]. rewrite length_take. lia.
Qed.

(** X4, witness: the lone body of C3 moved to (7, 8, 9). *)
Lemma set_positions_round_trip_witness :
  ∃ s', System.set_positions [Vec3 7 8 9]%float lone_v = Done s' ∧
        System.get_positions s' = [Vec3 7 8 9]%float ∧
        System.get_velocities s' = [Vec3 4 5 6]%float.
Proof.
  destruct (set_positions_round_trip [Vec3 7 8 9]%float lone_v)
    as (s' & Hset & _ & _ & Hpos & Hvel & _).
  - reflexivity.
  - simpl. lia.
  - exists s'. split; [exact Hset|]. split; [exact Hpos|exact Hvel].
Defined.

(** X5: set_positions with too few rows.  With m < n rows, the loop moves
    the first m bodies and then raises IndexError at pos[m]: the System is
    left with those bodies at their new positions and the others where
    they were. *)
Theorem set_positions_too_few_rows {R : Type} `{Scalar R}
    (pos : list (vec3 R)) (s : System.t R) :
  system_wf s → length pos < System.n s →
  System.set_positions pos s
  = Raised IndexError
      {| System.n := System.n s;
         System.bodies := zip_with move (take (length pos) (System.bodies s)) pos
                          ++ drop (length pos) (System.bodies s) |}.
Proof.
  intros Hwf Hlen.
  exact (update_rows_short (λ v a, Ok (move a v)) move pos s (λ _ _, eq_refl) Hwf Hlen).
Qed.

(** X5, witness: two bodies, one row. *)
Lemma set_positions_too_few_rows_witness :
  System.set_positions [Vec3 7 8 9]%float pair_apart
  = Raised IndexError (system_of [Body.set_position 7 8 9 body_o; body_d])%float.
Proof.
  rewrite (set_positions_too_few_rows [Vec3 7 8 9]%float pair_apart).
  - reflexivity.
  - reflexivity.
  - simpl. lia.
Defined.

(** X6: set_integration_results then get_integration_results.  For a
    slot 0 or 1 and two n x 3 arrays, the write succeeds; reading the same
    slot returns the rows of the two arrays side by side, reading the
    other slot returns what it held before, and positions and velocities
    are untouched. *)
Theorem integration_results_round_trip {R : Type} `{Scalar R}
    (slot : nat) (q p : list (vec3 R)) (s : System.t R) :
  slot < 2 → system_wf s → length q = System.n s → length p = System.n s →
  ∃ s', System.set_integration_results slot q p s = Done s' ∧
        system_wf s' ∧
        System.get_integration_results slot s' = Ok (zip q p) ∧
        System.get_integration_results (1 - slot) s'
        = System.get_integration_results (1 - slot) s ∧
        System.get_positions s' = System.get_positions s ∧
        System.get_velocities s' = System.get_velocities s.
Proof.
  intros Hs Hwf Hq Hp. rewrite set_integration_results_ok by done.
  eexists. split; [reflexivity|].
  pose proof (put_wf slot q p s Hwf Hq Hp) as Hwf'. split; [done|].
  unfold system_wf in Hwf.
  rewrite !get_integration_results_ok, !get_positions_wf, !get_velocities_wf
    by (done || lia).
  simpl. split; [|split; [|split]].
  - f_equal. apply fmap_zip_with_r; [apply slot_of_put|].
    rewrite length_zip_with. lia.
  - f_equal. apply fmap_zip_with_frame; [|rewrite length_zip_with; lia].
    intros b row. apply slot_of_put_other; lia.
  - apply fmap_zip_with_frame; [apply put_keeps_position|rewrite length_zip_with; lia].
  - apply fmap_zip_with_frame; [apply put_keeps_velocity|rewrite length_zip_with; lia].
Qed.

(** X6, witness: slot 1 of the lone body of C3. *)
Lemma integration_results_round_trip_witness :
  ∃ s', System.set_integration_results 1 [Vec3 7 8 9]%float [Vec3 4 5 6]%float lone_v
        = Done s' ∧
        System.get_integration_results 1 s' = Ok [(Vec3 7 8 9, Vec3 4 5 6)]%float ∧
        System.get_integration_results 0 s' = System.get_integration_results 0 lone_v.
Proof.
  destruct (integration_results_round_trip 1 [Vec3 7 8 9]%float [Vec3 4 5 6]%float lone_v)
    as (s' & Hset & _ & Hget & Hother & _); try reflexivity.
  - lia.
  - exists s'. split; [exact Hset|]. split; [exact Hget|exact Hother].
Defined.

(** X7: the errors of the integration history, for the slot indices 0, 1,
    2, ... (the loop passes k % 2; the negative indices, which numpy
    counts from the end, are not modelled).  Arrays with different numbers
    of rows make set_integration_results raise ValueError (from
    np.concatenate); a slot of 2 or more makes both the write and the read
    raise IndexError on a System with at least one body.  The System is
    unchanged in each case. *)
Theorem integration_results_errors {R : Type} `{Scalar R}
    (slot : nat) (q p : list (vec3 R)) (s : System.t R) :
  (length q ≠ length p →
   System.set_integration_results slot q p s = Raised ValueError s) ∧
  (2 ≤ slot → system_wf s → 0 < System.n s → length q = length p →
   System.set_integration_results slot q p s = Raised IndexError s) ∧
  (2 ≤ slot → system_wf s → 0 < System.n s →
   System.get_integration_results slot s = Err IndexError).
Proof.
  split; [|split].
  - intros Hne. unfold System.set_integration_results. by rewrite decide_False.
  - intros Hs Hwf Hn Hlen. unfold System.set_integration_results.
    rewrite decide_True by done. unfold System.update.
    destruct s as [n bs]. unfold system_wf in Hwf. simpl in *. subst n.
    destruct bs as [|b bs]; [simpl in Hn; lia|]. simpl.
    destruct (zip q p !! 0) as [row|]; [|done].
    by destruct slot as [|[|slot]]; [lia|lia|].
  - intros Hs Hwf Hn. unfold System.get_integration_results, System.enum.
    destruct s as [n bs]. unfold system_wf in Hwf. simpl in *. subst n.
    destruct bs as [|b bs]; [simpl in Hn; lia|]. simpl.
    by destruct slot as [|[|slot]]; [lia|lia|].
Qed.

(** X7, witness: one body; arrays of one and two rows, then slot 2. *)
Lemma integration_results_errors_witness :
  System.set_integration_results 0 [Vec3 7 8 9]%float [Vec3 4 5 6; Vec3 1 1 1]%float lone_v
  = Raised ValueError lone_v ∧
  System.set_integration_results 2 [Vec3 7 8 9]%float [Vec3 4 5 6]%float lone_v
  = Raised IndexError lone_v ∧
  System.get_integration_results 2 lone_v = Err IndexError.
Proof.
  split; [|split].
  - apply (proj1 (integration_results_errors 0 _ _ lone_v)). simpl. lia.
  - apply (proj1 (proj2 (integration_results_errors 2 _ _ lone_v)));
      [lia|reflexivity|simpl; lia|reflexivity].
  - apply (proj2 (proj2 (integration_results_errors 2 [] [] lone_v)));
      [lia|reflexivity|simpl; lia].
Defined.

(** ** The force matrix and the accelerations *)

Section ForceProperties.
Context {R : Type} `{Scalar R}.

Lemma force_depends (b1 b2 b1' b2' : Body.t R) :
  Body.get_position b1 = Body.get_position b1' → Body.mass b1 = Body.mass b1' →
  Body.get_position b2 = Body.get_position b2' → Body.mass b2 = Body.mass b2' →
  System.force b1 b2 = System.force b1' b2'.
Proof. intros E1 M1 E2 M2. unfold System.force. by rewrite E1, M1, E2, M2. Qed.

Lemma fmap_Forall2 {A B C : Type} (f : A → C) (g : B → C) (l : list A) (l' : list B) :
  Forall2 (λ x y, f x = g y) l l' → f <$> l = g <$> l'.
Proof.
  induction 1 as [|x y l l' Hxy _ IH]; [done|].
  rewrite !fmap_cons. by rewrite Hxy, IH.
Qed.

Lemma Forall2_of_fmaps {A C D : Type} (f : A → C) (g : A → D) (l l' : list A) :
  f <$> l = f <$> l' → g <$> l = g <$> l' →
  Forall2 (λ x y, f x = f y ∧ g x = g y) l l'.
Proof.
  revert l'. induction l as [|x l IH]; intros [|y l'] Hf Hg;
    rewrite ?fmap_nil, ?fmap_cons in *; try discriminate.
  - constructor.
  - apply (f_equal head) in Hf as Hf1. apply (f_equal tail) in Hf as Hf2.
    apply (f_equal head) in Hg as Hg1. apply (f_equal tail) in Hg as Hg2.
    cbn [head tail] in *.
    constructor; [split; congruence|by apply IH].
Qed.

Lemma zip_with_Forall2_l {A B C : Type} (F : A → B → C) (rel : A → A → Prop)
    (l l' : list A) (k : list B) :
  (∀ a a' x, rel a a' → F a x = F a' x) →
  Forall2 rel l l' → zip_with F l k = zip_with F l' k.
Proof.
  intros HF Hrel. revert k. induction Hrel as [|a a' l l' Ha _ IH]; intros [|x k];
    simpl; try done.
  by rewrite (HF a a' x Ha), IH.
Qed.

Lemma accelerations_depend (s s' : System.t R) :
  system_wf s → system_wf s' →
  Body.get_position <$> System.bodies s = Body.get_position <$> System.bodies s' →
  Body.mass <$> System.bodies s = Body.mass <$> System.bodies s' →
  System.get_accelerations s = System.get_accelerations s'.
Proof.
  intros Hwf Hwf' Hpos Hmass.
  pose proof (Forall2_of_fmaps _ _ _ _ Hpos Hmass) as Hrel.
  rewrite !get_accelerations_wf, !resultant_forces_wf by done.
  assert ((λ one, sum_rows (System.force one <$> System.bodies s)) <$> System.bodies s
          = (λ one, sum_rows (System.force one <$> System.bodies s')) <$> System.bodies s')
    as ->.
  { apply fmap_Forall2. eapply Forall2_impl; [exact Hrel|].
    intros one one' [Ep Em]. simpl. f_equal. apply fmap_Forall2.
    eapply Forall2_impl; [exact Hrel|].
    intros two two' [Ep' Em']. simpl. by apply force_depends. }
  apply (zip_with_Forall2_l _ (λ b b', Body.get_position b = Body.get_position b'
                                       ∧ Body.mass b = Body.mass b')); [|done].
  intros a a' x [_ Em]. unfold Body.compute_acceleration. by rewrite Em.
Qed.
End ForceProperties.

(** X8: the force matrix of a well-formed System of n bodies has n rows of
    n entries, entry [i][j] is force(bodies[i], bodies[j]), and it is the
    zero vector whenever the two positions compare equal (the guard of
    force): on the diagonal, and for two bodies at one place. *)
Theorem force_matrix_entries {R : Type} `{Scalar R}
    (s : System.t R) (i j : nat) (bi bj : Body.t R) :
  system_wf s →
  System.bodies s !! i = Some bi → System.bodies s !! j = Some bj →
  length (System.force_matrix s) = System.n s ∧
  ∃ row, System.force_matrix s !! i = Some row ∧
         length row = System.n s ∧
         row !! j = Some (System.force bi bj) ∧
         (array_equal (Body.get_position bj) (Body.get_position bi) = true →
          row !! j = Some zeros3).
Proof.
  intros Hwf Hi Hj. rewrite force_matrix_wf by done. unfold system_wf in Hwf.
  split; [by rewrite length_fmap|].
  exists (System.force bi <$> System.bodies s).
  rewrite !list_lookup_fmap, Hi, Hj. simpl.
  split; [done|]. split; [by rewrite length_fmap|]. split; [done|].
  intros E. by rewrite (force_same_position bi bj E).
Qed.

(** X8, witness: entry [1][0] of the two-body system of C1. *)
Lemma force_matrix_entries_witness :
  ∃ row, System.force_matrix pair_apart !! 1 = Some row ∧
         row !! 0 = Some (System.force body_d body_o).
Proof.
  destruct (force_matrix_entries pair_apart 1 0 body_d body_o)
    as (_ & row & Hrow & _ & Hentry & _); try reflexivity.
  exists row. split; [exact Hrow|exact Hentry].
Defined.

(** X9: what get_accelerations returns for body k of a well-formed System:
    the forces force(bodies[k], bodies[j]) added up over j (along the
    second index of the force matrix), each component divided by the mass
    of body k. *)
Theorem accelerations_are_row_sums {R : Type} `{Scalar R}
    (s : System.t R) (k : nat) (bk : Body.t R) :
  system_wf s → System.bodies s !! k = Some bk →
  length (System.get_accelerations s) = System.n s ∧
  System.get_accelerations s !! k
  = Some (vmap (λ f, div f (Body.mass bk))
               (sum_rows (System.force bk <$> System.bodies s))).
Proof.
  intros Hwf Hk. split; [apply get_accelerations_length|].
  rewrite get_accelerations_wf, resultant_forces_wf by done.
  rewrite lookup_zip_with, list_lookup_fmap, Hk. reflexivity.
Qed.

(** X9, witness: body 0 of the two-body system of C1. *)
Lemma accelerations_are_row_sums_witness :
  System.get_accelerations pair_apart !! 0
  = Some (vmap (λ f, div f 1%float)
               (sum_rows (System.force body_o <$> [body_o; body_d]))).
Proof.
  destruct (accelerations_are_row_sums pair_apart 0 body_o) as [_ Hacc].
  - reflexivity.
  - reflexivity.
  - exact Hacc.
Defined.

(** X10: the accelerations depend on the positions and the masses of the
    bodies only: two well-formed Systems whose bodies agree on these have
    the same accelerations, whatever their velocities and integration
    histories. *)
Theorem accelerations_ignore_velocity_and_history {R : Type} `{Scalar R}
    (s s' : System.t R) :
  system_wf s → system_wf s' →
  System.get_positions s = System.get_positions s' →
  Body.mass <$> System.bodies s = Body.mass <$> System.bodies s' →
  System.force_matrix s = System.force_matrix s' ∧
  System.get_accelerations s = System.get_accelerations s'.
Proof.
  intros Hwf Hwf' Hpos Hmass. rewrite !get_positions_wf in Hpos by done.
  split; [|by apply accelerations_depend].
  pose proof (Forall2_of_fmaps _ _ _ _ Hpos Hmass) as Hrel.
  rewrite !force_matrix_wf by done.
  apply fmap_Forall2. eapply Forall2_impl; [exact Hrel|].
  intros one one' [Ep Em]. simpl. apply fmap_Forall2.
  eapply Forall2_impl; [exact Hrel|].
  intros two two' [Ep' Em']. simpl. by apply force_depends.
Qed.

(** X10, witness: the lone body of C3 and the same body with another
    velocity. *)
Lemma accelerations_ignore_velocity_and_history_witness :
  System.get_accelerations lone_v
  = System.get_accelerations (system_of [Body.set_velocity 0 0 0 body_v])%float.
Proof.
  apply (accelerations_ignore_velocity_and_history lone_v
           (system_of [Body.set_velocity 0 0 0 body_v])%float); reflexivity.
Defined.

(** ** The recorder *)

Section RecorderProperties.
Context {R : Type} `{Scalar R}.

Lemma store_rows_short (row : nat) :
  ∀ (todo seen : list (list (vec3 R))) (posd post : list (vec3 R)),
    length seen = length posd →
    length post < length todo →
    Forall (λ buf, row < length buf) todo →
    Trajectory.store_rows (posd ++ post) row (seq (length seen) (length todo)) (seen ++ todo)
    = Raised IndexError
        (seen ++ zip_with (store row) (take (length post) todo) post
              ++ drop (length post) todo).
Proof.
  induction todo as [|buf todo IH]; intros seen posd post Hd Hlen Hall;
    [simpl in Hlen; lia|].
  apply Forall_cons in Hall as [Hbuf Hall].
  destruct post as [|v post]; simpl in Hlen; simpl.
  - rewrite app_nil_r, (lookup_ge_None_2 posd) by lia. done.
  - rewrite Hd at 1. rewrite list_lookup_middle by done.
    rewrite list_lookup_middle by done.
    rewrite decide_True by done.
    rewrite insert_app_r_alt by lia. rewrite Nat.sub_diag. simpl.
    specialize (IH (seen ++ [<[row:=v]> buf]) (posd ++ [v]) post).
    rewrite <- !app_assoc, !length_app in IH. simpl in IH.
    rewrite !Nat.add_1_r in IH. rewrite IH; [done|lia|lia|done].
Qed.

Lemma record_all_app (ps qs : list (list (vec3 R))) :
  ∀ tr : Trajectory.t R,
    record_all (ps ++ qs) tr
    = match record_all ps tr with
      | Done tr' => record_all qs tr'
      | Raised e tr' => Raised e tr'
      end.
Proof.
  induction ps as [|p ps IH]; intros tr; simpl; [done|].
  destruct (Trajectory.set_trajectory_position p tr); [apply IH|done].
Qed.
End RecorderProperties.

(** X12: the buffers of a partly filled recorder.  After k ≤ cap calls on a
    fresh Trajectory for nb bodies with cap rows, get(b) for a body b < nb
    is the k rows passed for b followed by cap - k rows of zeros (what
    np.zeros allocated); get(b) for b ≥ nb raises IndexError. *)
Theorem trajectory_buffers_after_records {R : Type} `{Scalar R}
    (nb cap : nat) (ps : list (list (vec3 R))) :
  length ps ≤ cap →
  Forall (λ p, length p = nb) ps →
  ∃ tr, record_all ps (Trajectory.init nb cap) = Done tr ∧
        (∀ b, b < nb →
           ∃ col, passed_for b ps = Some col ∧
                  Trajectory.get_trajectory b tr
                  = Ok (col ++ zeros_n3 (cap - length ps))) ∧
        (∀ b, nb ≤ b → Trajectory.get_trajectory b tr = Err IndexError).
Proof.
  intros Hk Hps.
  destruct (record_all_from nb cap ps (Trajectory.init nb cap))
    as (tr & Hrun & Hwf & Hn & Hrc & Hcols); [apply init_wf|done|simpl; lia|done|].
  exists tr. split; [done|]. split.
  - intros b Hb.
    destruct (Hcols b (zeros_n3 cap)) as (col & Hcol & Hbuf).
    { simpl. by apply lookup_replicate_2. }
    exists col. split; [done|].
    unfold Trajectory.get_trajectory. rewrite Hbuf. simpl.
    unfold zeros_n3. by rewrite drop_replicate.
  - intros b Hb. unfold Trajectory.get_trajectory.
    destruct Hwf as [Hlen _]. rewrite lookup_ge_None_2 by lia. done.
Qed.

(** X12, witness: two bodies, three rows, one call. *)
Lemma trajectory_buffers_after_records_witness :
  ∃ tr, record_all [[Vec3 1 2 3; Vec3 4 5 6]]%float (Trajectory.init 2 3) = Done tr ∧
        Trajectory.get_trajectory 1 tr = Ok [Vec3 4 5 6; Vec3 0 0 0; Vec3 0 0 0]%float ∧
        Trajectory.get_trajectory 2 tr = Err IndexError.
Proof.
  destruct (trajectory_buffers_after_records (R := float) 2 3 [[Vec3 1 2 3; Vec3 4 5 6]]%float)
    as (tr & Hrun & Hcols & Hout).
  - simpl. lia.
  - repeat constructor.
  - exists tr. split; [exact Hrun|]. split; [|apply Hout; lia].
    destruct (Hcols 1) as (col & Hcol & Hget); [lia|].
    simpl in Hcol. injection Hcol as <-. exact Hget.
Defined.

(** X13: record with too few rows.  On a recorder that is not full, an
    array with m < n_trajectories rows makes set_trajectory_position write
    row row_counter of the first m buffers and then raise IndexError at
    pos[m]: the row counter is not advanced, and the other buffers are as
    they were. *)
Theorem record_too_few_rows {R : Type} `{Scalar R}
    (cap : nat) (pos : list (vec3 R)) (tr : Trajectory.t R) :
  trajectory_wf cap tr →
  Trajectory.row_counter tr < cap →
  length pos < Trajectory.n_trajectories tr →
  Trajectory.set_trajectory_position pos tr
  = Raised IndexError
      {| Trajectory.trajectories :=
           zip_with (store (Trajectory.row_counter tr))
                    (take (length pos) (Trajectory.trajectories tr)) pos
           ++ drop (length pos) (Trajectory.trajectories tr);
         Trajectory.n_trajectories := Trajectory.n_trajectories tr;
         Trajectory.row_counter := Trajectory.row_counter tr |}.
Proof.
  intros [Hn Hall] Hrow Hpos. unfold Trajectory.set_trajectory_position.
  rewrite Hn at 1.
  pose proof (store_rows_short (Trajectory.row_counter tr)
                (Trajectory.trajectories tr) [] [] pos) as E.
  simpl in E. rewrite E; [done|done|lia|].
  eapply Forall_impl; [exact Hall|]. simpl. intros buf ->. done.
Qed.

(** X13, witness: two bodies, two rows, an array of one row. *)
Lemma record_too_few_rows_witness :
  Trajectory.set_trajectory_position [Vec3 1 2 3]%float (Trajectory.init 2 2)
  = Raised IndexError
      {| Trajectory.trajectories := [[Vec3 1 2 3; Vec3 0 0 0]; [Vec3 0 0 0; Vec3 0 0 0]]%float;
         Trajectory.n_trajectories := 2;
         Trajectory.row_counter := 0 |}.
Proof.
  rewrite (record_too_few_rows (R := float) 2 [Vec3 1 2 3]%float (Trajectory.init 2 2)).
  - reflexivity.
  - apply init_wf.
  - simpl. lia.
  - simpl. lia.
Defined.

(** X14: a recorder never holds more than cap rows.  On a fresh Trajectory
    for nb ≥ 1 bodies with cap rows, cap calls with nb x 3 arrays succeed,
    and any longer sequence of calls raises IndexError at call cap + 1,
    leaving the recorder as the first cap calls left it. *)
Theorem record_beyond_capacity {R : Type} `{Scalar R}
    (nb cap : nat) (ps qs : list (list (vec3 R))) :
  0 < nb → length ps = cap →
  Forall (λ p, length p = nb) ps →
  qs ≠ [] →
  ∃ tr, record_all ps (Trajectory.init nb cap) = Done tr ∧
        Trajectory.row_counter tr = cap ∧
        record_all (ps ++ qs) (Trajectory.init nb cap) = Raised IndexError tr.
Proof.
  intros Hnb Hlen Hps Hqs.
  destruct (record_all_from nb cap ps (Trajectory.init nb cap))
    as (tr & Hrun & Hwf & Hn & Hrc & _); [apply init_wf|done|simpl; lia|done|].
  exists tr. split; [done|]. simpl in Hrc. split; [lia|].
  rewrite record_all_app, Hrun. destruct qs as [|q qs]; [done|]. simpl.
  rewrite (set_trajectory_position_full cap); [done|done|lia|lia].
Qed.

(** X14, witness: one body, one row, two calls. *)
Lemma record_beyond_capacity_witness :
  ∃ tr, record_all [[Vec3 1 2 3]]%float (Trajectory.init 1 1) = Done tr ∧
        record_all [[Vec3 1 2 3]; [Vec3 4 5 6]]%float (Trajectory.init 1 1)
        = Raised IndexError tr.
Proof.
  destruct (record_beyond_capacity (R := float) 1 1 [[Vec3 1 2 3]]%float [[Vec3 4 5 6]]%float)
    as (tr & Hrun & _ & Hfail).
  - lia.
  - reflexivity.
  - repeat constructor.
  - discriminate.
  - exists tr. split; [exact Hrun|exact Hfail].
Defined.

(** ** The loop as a whole *)

Section RunProperties.
Context {R : Type} `{Scalar R}.

Lemma placed_wf (s : System.t R) (q : list (vec3 R)) :
  system_wf s → length q = System.n s → system_wf (placed s q).
Proof.
  intros Hwf Hq. unfold system_wf, placed in *. simpl.
  rewrite length_zip_with. lia.
Qed.

Lemma placed_positions (s : System.t R) (q : list (vec3 R)) :
  system_wf s → length q = System.n s → System.get_positions (placed s q) = q.
Proof.
  intros Hwf Hq. rewrite get_positions_wf by (by apply placed_wf).
  unfold placed. simpl. apply fmap_zip_with_r; [by intros b []|].
  unfold system_wf in Hwf. lia.
Qed.

Lemma placed_masses (s : System.t R) (q : list (vec3 R)) :
  system_wf s → length q = System.n s →
  Body.mass <$> System.bodies (placed s q) = Body.mass <$> System.bodies s.
Proof.
  intros Hwf Hq. unfold placed. simpl.
  apply fmap_zip_with_frame; [done|]. unfold system_wf in Hwf. lia.
Qed.

(** The accelerations of a state of the run are those of the initial
    System put at the current positions. *)
Lemma run_accelerations (s0 : System.t R) (rows k : nat) (st : state R) :
  system_wf s0 → run_inv s0 rows k st →
  System.get_accelerations (sol st)
  = System.get_accelerations (placed s0 (System.get_positions (sol st))).
Proof.
  intros Hwf0 Hinv. pose proof (inv_wf _ _ _ _ Hinv) as Hwf.
  assert (length (System.get_positions (sol st)) = System.n s0) as Hlen.
  { rewrite get_positions_wf by done. rewrite length_fmap.
    rewrite <- (inv_n _ _ _ _ Hinv). symmetry. exact Hwf. }
  apply accelerations_depend; [done|by apply placed_wf| |].
  - rewrite <- !get_positions_wf by (done || by apply placed_wf).
    by rewrite placed_positions.
  - rewrite placed_masses by done. apply Hinv.
Qed.

Lemma rows_kept (s0 : System.t R) (rows k r : nat) (st : state R) :
  system_wf s0 → r < k →
  run_steps rows k s0 = Done st →
  ∀ d st', k + d ≤ rows → run_steps rows (k + d) s0 = Done st' →
    recorded_row r (tra st') = recorded_row r (tra st).
Proof.
  intros Hwf0 Hr Hrun. induction d as [|d IH]; intros st' Hd Hrun'.
  - rewrite Nat.add_0_r in Hrun'. congruence.
  - destruct (run_steps_inv s0 rows Hwf0 (k + d)) as (st1 & Hrun1 & Hinv1); [lia|].
    destruct (run_steps_next s0 rows (k + d) st1 Hwf0 ltac:(lia) Hrun1) as [_ Hnext].
    replace (k + S d) with (S (k + d)) in Hrun' by lia.
    assert (st' = after_step ((k + d) `mod` 2)
                    (new_positions (System.get_velocities s0) (k + d) (sol st1))
                    (System.get_velocities s0) st1) as -> by congruence.
    rewrite <- (IH st1) by (done || lia).
    unfold recorded_row. cbn [tra after_step Trajectory.trajectories].
    apply recorded_row_store_ne; [rewrite (inv_rc _ _ _ _ Hinv1); lia|].
    rewrite new_positions_length.
    + destruct (inv_tra _ _ _ _ Hinv1) as [<- _].
      rewrite (inv_nt _ _ _ _ Hinv1), (inv_n _ _ _ _ Hinv1). done.
    + apply Hinv1.
    + rewrite get_velocities_length by done. symmetry. apply Hinv1.
Qed.

(** The row recorded by iteration [k], read in the state after it. *)
Lemma row_recorded (s0 : System.t R) (rows k : nat) :
  system_wf s0 → k < rows →
  ∃ st st', run_steps rows k s0 = Done st ∧ run_inv s0 rows k st ∧
            run_steps rows (S k) s0 = Done st' ∧ run_inv s0 rows (S k) st' ∧
            System.get_positions (sol st')
            = new_positions (System.get_velocities s0) k (sol st) ∧
            recorded_row k (tra st') = Some (System.get_positions (sol st')).
Proof.
  intros Hwf0 Hk.
  destruct (run_steps_inv s0 rows Hwf0 k) as (st & Hrun & Hinv); [lia|].
  destruct (run_steps_next s0 rows k st Hwf0 Hk Hrun) as [_ Hnext].
  pose proof (run_inv_step s0 rows k st Hwf0 Hinv Hk) as Hinv'.
  eexists st, _. split; [done|]. split; [done|]. split; [exact Hnext|].
  split; [exact Hinv'|]. split.
  - apply after_step_positions; [apply Hinv| |].
    + apply new_positions_length; [apply Hinv|].
      rewrite get_velocities_length by done. symmetry. apply Hinv.
    + rewrite get_velocities_length by done. symmetry. apply Hinv.
  - pose proof (inv_pos _ _ _ _ Hinv' ltac:(lia)) as Hpos.
    by replace (S k - 1) with k in Hpos by lia.
Qed.

Lemma row_zero (s0 : System.t R) (rows : nat) :
  system_wf s0 → 0 < rows →
  ∃ st, run_steps rows 1 s0 = Done st ∧ run_inv s0 rows 1 st ∧
        System.get_positions (sol st) = System.get_positions s0 ∧
        recorded_row 0 (tra st) = Some (System.get_positions s0).
Proof.
  intros Hwf0 Hrows.
  destruct (row_recorded s0 rows 0 Hwf0 Hrows)
    as (st & st' & Hrun & Hinv & Hrun' & Hinv' & Hpos & Hrow).
  assert (st = start rows s0) as -> by (unfold run_steps in Hrun; simpl in Hrun; congruence).
  exists st'. split; [done|]. split; [done|].
  cbn [new_positions start sol] in Hpos. split; [done|]. by rewrite <- Hpos.
Qed.

Lemma row_one (s0 : System.t R) (rows : nat) :
  system_wf s0 → 1 < rows →
  ∃ st, run_steps rows 2 s0 = Done st ∧ run_inv s0 rows 2 st ∧
        recorded_row 1 (tra st)
        = Some (bootstrap (System.get_positions s0) (System.get_velocities s0)
                          (System.get_accelerations s0)).
Proof.
  intros Hwf0 Hrows.
  destruct (row_zero s0 rows Hwf0 ltac:(lia)) as (st1 & Hrun1 & Hinv1 & Hpos1 & _).
  destruct (row_recorded s0 rows 1 Hwf0 Hrows)
    as (st & st' & Hrun & Hinv & Hrun' & Hinv' & Hpos & Hrow).
  assert (st = st1) as -> by congruence.
  exists st'. split; [done|]. split; [done|]. rewrite Hrow, Hpos. f_equal.
  cbn [new_positions].
  pose proof (inv_newer _ _ _ _ Hinv1 ltac:(lia)) as Hnew.
  change ((1 + 1) `mod` 2) with 0 in Hnew. rewrite Hnew, Hpos1. f_equal.
  apply accelerations_depend; [apply Hinv1|done| |apply Hinv1].
  rewrite <- !get_positions_wf by (done || apply Hinv1). done.
Qed.

Lemma row_next (s0 : System.t R) (rows k : nat) :
  system_wf s0 → 2 ≤ k → k < rows →
  ∃ st qa qb, run_steps rows (S k) s0 = Done st ∧
              recorded_row (k - 2) (tra st) = Some qa ∧
              recorded_row (k - 1) (tra st) = Some qb ∧
              length qb = System.n s0 ∧
              recorded_row k (tra st)
              = Some (stormer qb qa (System.get_accelerations (placed s0 qb))).
Proof.
  intros Hwf0 Hk2 Hk.
  destruct (row_recorded s0 rows k Hwf0 Hk)
    as (st & st' & Hrun & Hinv & Hrun' & Hinv' & Hpos & Hrow).
  exists st', (slot_positions (k `mod` 2) (sol st)), (System.get_positions (sol st)).
  split; [done|].
  pose proof (rows_kept s0 rows k (k - 2) st Hwf0 ltac:(lia) Hrun 1 st' ltac:(lia)) as Hk2'.
  pose proof (rows_kept s0 rows k (k - 1) st Hwf0 ltac:(lia) Hrun 1 st' ltac:(lia)) as Hk1'.
  replace (k + 1) with (S k) in * by lia.
  rewrite Hk2', Hk1' by done.
  split; [apply (inv_older _ _ _ _ Hinv); lia|].
  split; [apply (inv_pos _ _ _ _ Hinv); lia|].
  split.
  { rewrite get_positions_wf by apply Hinv. rewrite length_fmap.
    rewrite <- (inv_n _ _ _ _ Hinv). symmetry. apply Hinv. }
  rewrite Hrow, Hpos. f_equal.
  rewrite <- (run_accelerations s0 rows k st) by done.
  rewrite <- (inv_newer _ _ _ _ Hinv) by lia.
  destruct k as [|[|k]]; [lia|lia|reflexivity].
Qed.
End RunProperties.

(** X15: the loop runs to its end.  On a well-formed System, all [rows]
    iterations complete without an exception; afterwards the recorder is
    full (row_counter = rows), the System still has its n bodies with
    their masses, and its positions are the last row recorded. *)
Theorem verlet_run_completes {R : Type} `{Scalar R} (s0 : System.t R) (rows : nat) :
  system_wf s0 →
  ∃ st, run rows s0 = Done st ∧
        Trajectory.row_counter (tra st) = rows ∧
        trajectory_wf rows (tra st) ∧
        system_wf (sol st) ∧ System.n (sol st) = System.n s0 ∧
        Body.mass <$> System.bodies (sol st) = Body.mass <$> System.bodies s0 ∧
        (0 < rows →
         recorded_row (rows - 1) (tra st) = Some (System.get_positions (sol st))).
Proof.
  intros Hwf0.
  destruct (run_steps_inv s0 rows Hwf0 rows) as (st & Hrun & Hinv); [lia|].
  exists st. split; [done|]. repeat split; try apply Hinv.
Qed.

(** X15, witness: the two bodies of C1, five iterations. *)
Lemma verlet_run_completes_witness :
  ∃ st, run 5 pair_apart = Done st ∧ Trajectory.row_counter (tra st) = 5.
Proof.
  destruct (verlet_run_completes pair_apart 5) as (st & Hrun & Hrc & _).
  - reflexivity.
  - exists st. split; [exact Hrun|exact Hrc].
Defined.

(** X16: the loop never rewrites a recorded row: row r of the recorder, as
    it is after k > r iterations, is still there when the loop ends. *)
Theorem recorded_rows_are_kept {R : Type} `{Scalar R}
    (s0 : System.t R) (rows k r : nat) :
  system_wf s0 → r < k → k ≤ rows →
  ∃ st stf, run_steps rows k s0 = Done st ∧
            run rows s0 = Done stf ∧
            recorded_row r (tra stf) = recorded_row r (tra st).
Proof.
  intros Hwf0 Hr Hk.
  destruct (run_steps_inv s0 rows Hwf0 k) as (st & Hrun & _); [lia|].
  destruct (run_steps_inv s0 rows Hwf0 rows) as (stf & Hrunf & _); [lia|].
  exists st, stf. split; [done|]. split; [done|].
  apply (rows_kept s0 rows k r st Hwf0 Hr Hrun (rows - k)); [lia|].
  by replace (k + (rows - k)) with rows by lia.
Qed.

(** X16, witness: row 0 of the lone mover after one and after three
    iterations. *)
Lemma recorded_rows_are_kept_witness :
  ∃ st stf, run_steps 3 1 lone_mover = Done st ∧
            run 3 lone_mover = Done stf ∧
            recorded_row 0 (tra stf) = recorded_row 0 (tra st).
Proof.
  apply (recorded_rows_are_kept lone_mover 3 1 0); [reflexivity|lia|lia].
Defined.




